(** * ringbuf-c: an array backed circular queue for arbitrarily sized elements

    A shallow embedding of [ringbuf.c] / [ringbuf.h] and the properties of
    its operations.

    - [size_t] values are integers in [0, 2^64) with the wrap-around of
      unsigned C arithmetic written out.
    - The storage array behind [rb->buf] is a list of bytes; a pointer into
      it is a byte offset from its base.
    - Undefined behaviour of the C program (a remainder by zero, an access
      outside an object) is an explicit [Fault] outcome.
    - A function taking [struct ringbuf *rb] is a computation over the
      machine state: the struct together with the text written to stdout by
      the [RINGBUF_DEBUG] blocks. *)

From Stdlib Require Import String Ascii.
From Stdlib Require Import Strings.Byte.
From Stdlib Require Import ZArith List Lia Bool.
Import ListNotations.
Local Open Scope string_scope.
Local Open Scope list_scope.
Local Open Scope Z_scope.

(* ================================================================= *)
(** ** Unsigned machine arithmetic *)

Definition SIZE_BITS : Z := 64.
Definition SIZE_MOD : Z := 2 ^ SIZE_BITS.

(** [x] is a value of type [size_t]. *)
Definition is_size (x : Z) : Prop := 0 <= x < SIZE_MOD.

Definition size_add (a b : Z) : Z := (a + b) mod SIZE_MOD.
Definition size_sub (a b : Z) : Z := (a - b) mod SIZE_MOD.
Definition size_mul (a b : Z) : Z := (a * b) mod SIZE_MOD.

(* ================================================================= *)
(** ** Outcomes: a result, or undefined behaviour *)

Inductive fault : Type :=
| DivByZero     (* [a % 0] *)
| OutOfBounds.  (* read or write outside an object *)

Inductive outcome (A : Type) : Type :=
| Fault (f : fault)
| Done (a : A).
Arguments Fault {A} f.
Arguments Done {A} a.

(** C's [a % b] on [size_t]. *)
Definition size_rem (a b : Z) : outcome Z :=
  if b =? 0 then Fault DivByZero else Done (a mod b).

(* ================================================================= *)
(** ** Memory objects *)

Definition bytes : Type := list byte.

(** Read [n] bytes at offset [off] of the object [m]. *)
Definition mem_read (m : bytes) (off n : Z) : outcome bytes :=
  if off + n <=? Z.of_nat (length m)
  then Done (firstn (Z.to_nat n) (skipn (Z.to_nat off) m))
  else Fault OutOfBounds.

(** Overwrite the object [m] with [data] from offset [off] on. *)
Definition mem_write (m : bytes) (off : Z) (data : bytes) : outcome bytes :=
  if off + Z.of_nat (length data) <=? Z.of_nat (length m)
  then Done (firstn (Z.to_nat off) m ++ data
               ++ skipn (Z.to_nat off + length data) m)
  else Fault OutOfBounds.

(** [memset(p, 0, n)] writes this. *)
Definition zeros (n : Z) : bytes := repeat x00 (Z.to_nat n).

(* ================================================================= *)
(** ** [struct ringbuf] *)

(** The callback [elem_copy(dst, src)]: from the bytes at [dst]
    before the call and the bytes at [src], the bytes at [dst] after it. *)
Definition copy_fn : Type := bytes -> bytes -> bytes.

(** The callback [elem_print(elem)]: the text it prints. *)
Definition print_fn : Type := bytes -> string.

Record ringbuf : Type := mk_ringbuf {
  buf : bytes;          (* the array [buf] points to *)
  capacity : Z;
  elem_sz : Z;
  head : Z;
  tail : Z;
  count : Z;
  elem_copy : option copy_fn;
  elem_print : option print_fn
}.

Definition set_buf (b : bytes) (r : ringbuf) : ringbuf :=
  mk_ringbuf b (capacity r) (elem_sz r) (head r) (tail r) (count r)
             (elem_copy r) (elem_print r).
Definition set_head (h : Z) (r : ringbuf) : ringbuf :=
  mk_ringbuf (buf r) (capacity r) (elem_sz r) h (tail r) (count r)
             (elem_copy r) (elem_print r).
Definition set_tail (t : Z) (r : ringbuf) : ringbuf :=
  mk_ringbuf (buf r) (capacity r) (elem_sz r) (head r) t (count r)
             (elem_copy r) (elem_print r).
Definition set_count (c : Z) (r : ringbuf) : ringbuf :=
  mk_ringbuf (buf r) (capacity r) (elem_sz r) (head r) (tail r) c
             (elem_copy r) (elem_print r).

(* ================================================================= *)
(** ** The machine and its monad *)

Record machine : Type := mk_machine {
  rb : ringbuf;       (* [*rb] *)
  stdout : string     (* everything printed so far *)
}.

Definition M (A : Type) : Type := machine -> outcome (A * machine).

Definition ret {A} (a : A) : M A := fun s => Done (a, s).

Definition bind {A B} (c : M A) (k : A -> M B) : M B :=
  fun s => match c s with
           | Fault f => Fault f
           | Done (a, s') => k a s'
           end.

Notation "x <- c ;; k" := (bind c (fun x => k))
  (at level 61, c at next level, right associativity).
Notation "c ;;; k" := (bind c (fun _ => k))
  (at level 61, right associativity).

Definition lift {A} (o : outcome A) : M A :=
  fun s => match o with Fault f => Fault f | Done a => Done (a, s) end.

Definition get : M ringbuf := fun s => Done (rb s, s).

Definition modify (f : ringbuf -> ringbuf) : M unit :=
  fun s => Done (tt, mk_machine (f (rb s)) (stdout s)).

Definition printf (t : string) : M unit :=
  fun s => Done (tt, mk_machine (rb s) (String.append (stdout s) t)).

Definition newline : string := String "010" EmptyString.

(* ================================================================= *)
(** ** The operations of ringbuf.c *)

Definition RB_OK : Z := 0.
Definition RB_ERR : Z := -1.

(** [ringbuf_init]: [rb] is the struct to fill in ([None] for [NULL]; what
    it held before is irrelevant), [b] the storage array ([None] for
    [NULL]).  Returns the status and what [rb] holds afterwards. *)
Definition ringbuf_init (r : option ringbuf) (b : option bytes)
           (n_elem elem_size : Z) : Z * option ringbuf :=
  match r, b with
  | Some _, Some storage =>
      (RB_OK, Some (mk_ringbuf storage n_elem elem_size 0 0 0 None None))
  | _, _ => (RB_ERR, r)
  end.

Definition ringbuf_full : M Z :=
  r <- get ;; ret (if count r =? capacity r then 1 else 0).

Definition ringbuf_empty : M Z :=
  r <- get ;; ret (if 0 =? count r then 1 else 0).

(** The body of the [for] loop of [ringbuf_print_elems], [n] more times
    from index [i]. *)
Fixpoint print_loop (fn : print_fn) (n : nat) (i : Z) : M unit :=
  match n with
  | O => ret tt
  | S n' =>
      r <- get ;;
      idx <- lift (size_rem (size_add (head r) i) (capacity r)) ;;
      e <- lift (mem_read (buf r) (size_mul (elem_sz r) idx) (elem_sz r)) ;;
      printf (fn e) ;;;
      printf " " ;;;
      print_loop fn n' (size_add i 1)
  end.

Definition ringbuf_print_elems (fn : print_fn) : M unit :=
  r <- get ;;
  print_loop fn (Z.to_nat (count r)) 0 ;;;
  printf (String.append (if count r =? 0 then "(empty)" else EmptyString) newline).

(** The [RINGBUF_DEBUG] block at the end of [ringbuf_add_tail]. *)
Definition debug_add_tail (e : bytes) : M unit :=
  r <- get ;;
  match elem_print r with
  | Some p =>
      printf "ringbuf_add_tail: added elem: " ;;;
      printf (p e) ;;;
      printf newline ;;;
      ringbuf_print_elems p
  | None => ret tt
  end.

(** The [RINGBUF_DEBUG] block of [ringbuf_remove_head] after the copy into
    the destination [d]. *)
Definition debug_removed_elem (d : bytes) : M unit :=
  r <- get ;;
  match elem_print r with
  | Some p =>
      printf "ringbuf_remove_head: removed elem: " ;;;
      printf (p d) ;;;
      printf newline
  | None => ret tt
  end.

(** The [RINGBUF_DEBUG] block at the end of [ringbuf_remove_head]. *)
Definition debug_remove_head : M unit :=
  r <- get ;;
  match elem_print r with
  | Some p => ringbuf_print_elems p
  | None => ret tt
  end.

(** [ringbuf_add_tail(rb, elem)]: [elem] is the object the pointer refers
    to, [None] for [NULL]. *)
Definition ringbuf_add_tail (elem : option bytes) : M Z :=
  match elem with
  | None => ret 0
  | Some e =>
      full <- ringbuf_full ;;
      if negb (full =? 0) then ret (-1) else
      r <- get ;;
      let tp := size_mul (elem_sz r) (tail r) in
      match elem_copy r with
      | Some f =>
          slot <- lift (mem_read (buf r) tp (elem_sz r)) ;;
          b <- lift (mem_write (buf r) tp (f slot e)) ;;
          modify (set_buf b)
      | None =>
          src <- lift (mem_read e 0 (elem_sz r)) ;;
          b <- lift (mem_write (buf r) tp src) ;;
          modify (set_buf b)
      end ;;;
      r <- get ;;
      t <- lift (size_rem (size_add (tail r) 1) (capacity r)) ;;
      modify (set_tail t) ;;;
      r <- get ;;
      modify (set_count (size_add (count r) 1)) ;;;
      debug_add_tail e ;;;
      ret 0
  end.

(** [ringbuf_remove_head(rb, elem)]: [elem] is the destination object,
    [None] for [NULL].  Returns the status and what the destination holds
    afterwards. *)
Definition ringbuf_remove_head (elem : option bytes) : M (Z * option bytes) :=
  empty <- ringbuf_empty ;;
  if negb (empty =? 0) then ret (-1, elem) else
  r <- get ;;
  let hp := size_mul (elem_sz r) (head r) in
  elem' <- match elem with
           | Some d =>
               d' <- match elem_copy r with
                     | Some f =>
                         slot <- lift (mem_read (buf r) hp (elem_sz r)) ;;
                         lift (mem_write d 0 (f d slot))
                     | None =>
                         slot <- lift (mem_read (buf r) hp (elem_sz r)) ;;
                         lift (mem_write d 0 slot)
                     end ;;
               debug_removed_elem d' ;;;
               ret (Some d')
           | None => ret None
           end ;;
  b <- lift (mem_write (buf r) hp (zeros (elem_sz r))) ;;
  modify (set_buf b) ;;;
  r <- get ;;
  h <- lift (size_rem (size_add (head r) 1) (capacity r)) ;;
  modify (set_head h) ;;;
  r <- get ;;
  modify (set_count (size_sub (count r) 1)) ;;;
  debug_remove_head ;;;
  ret (0, elem').

(* ================================================================= *)
(** ** Programs over the interface *)

(** The machine right after a successful [ringbuf_init], nothing printed. *)
Definition boot (r : ringbuf) : machine := mk_machine r EmptyString.

(** One call of a mutating operation that returns. *)
Inductive step : machine -> machine -> Prop :=
| step_add : forall e rc s s',
    ringbuf_add_tail e s = Done (rc, s') -> step s s'
| step_remove : forall d res s s',
    ringbuf_remove_head d s = Done (res, s') -> step s s'.

(** The machines reached from [ringbuf_init(rb, buf, n_elem, elem_size)]
    returning 0 by calls of [ringbuf_add_tail] and [ringbuf_remove_head]. *)
Inductive reachable (n_elem elem_size : Z) : machine -> Prop :=
| reach_init : forall r0 b r out,
    is_size n_elem -> is_size elem_size ->
    ringbuf_init r0 b n_elem elem_size = (RB_OK, Some r) ->
    reachable n_elem elem_size (mk_machine r out)
| reach_step : forall s s',
    reachable n_elem elem_size s -> step s s' ->
    reachable n_elem elem_size s'.

(** A caller's sequence of calls, and what each returned. *)
Inductive call : Type :=
| AddTail (elem : option bytes)
| RemoveHead (dst : option bytes).

Inductive result : Type :=
| Added (rc : Z)
| Removed (rc : Z) (dst : option bytes).

Definition exec (c : call) : M result :=
  match c with
  | AddTail e => rc <- ringbuf_add_tail e ;; ret (Added rc)
  | RemoveHead d => x <- ringbuf_remove_head d ;; ret (Removed (fst x) (snd x))
  end.

Fixpoint run (cs : list call) : M (list result) :=
  match cs with
  | [] => ret []
  | c :: cs' => x <- exec c ;; xs <- run cs' ;; ret (x :: xs)
  end.

(** The elements of the calls [cs] that [ringbuf_add_tail] accepted, in
    call order. *)
Fixpoint accepted (cs : list call) (rs : list result) : list bytes :=
  match cs, rs with
  | AddTail (Some e) :: cs', Added rc :: rs' =>
      if rc =? 0 then e :: accepted cs' rs' else accepted cs' rs'
  | _ :: cs', _ :: rs' => accepted cs' rs'
  | _, _ => []
  end.

(** What the successful [ringbuf_remove_head] calls left in their
    destination, in call order; [None] for a call without destination. *)
Fixpoint delivered (rs : list result) : list (option bytes) :=
  match rs with
  | Removed rc d :: rs' =>
      if rc =? 0 then d :: delivered rs' else delivered rs'
  | _ :: rs' => delivered rs'
  | [] => []
  end.

(** The k-th removal took the k-th element of [ins]. *)
Fixpoint in_order (outs : list (option bytes)) (ins : list bytes) : Prop :=
  match outs, ins with
  | [], _ => True
  | o :: outs', i :: ins' => (o = None \/ o = Some i) /\ in_order outs' ins'
  | _ :: _, [] => False
  end.

(** The argument objects have the size of an element. *)
Definition sized (n : Z) (c : call) : Prop :=
  match c with
  | AddTail (Some e) => Z.of_nat (length e) = n
  | RemoveHead (Some d) => Z.of_nat (length d) = n
  | _ => True
  end.

(* ================================================================= *)
(** ** The invariants of the data model *)

Definition count_ok (r : ringbuf) : Prop := 0 <= count r <= capacity r.

Definition index_ok (r : ringbuf) : Prop :=
  (0 <= head r < capacity r) /\ (0 <= tail r < capacity r).

Definition tail_ok (r : ringbuf) : Prop :=
  tail r = (head r + count r) mod capacity r.

Definition ringbuf_inv (r : ringbuf) : Prop :=
  count_ok r /\ index_ok r /\ tail_ok r.

(** A C truth value. *)
Definition truthy (v : Z) : Prop := v <> 0.

(** The storage is an object that holds [capacity] elements. *)
Definition storage_ok (r : ringbuf) : Prop :=
  is_size (capacity r) /\ is_size (elem_sz r) /\
  capacity r * elem_sz r <= Z.of_nat (length (buf r)) < SIZE_MOD.

(** The storage holds every slot the indices can name. *)
Definition covers (r : ringbuf) : Prop :=
  0 <= elem_sz r /\ 0 < capacity r /\
  capacity r * elem_sz r <= Z.of_nat (length (buf r)).

(** The bytes of the element at index [idx]. *)
Definition slot (r : ringbuf) (idx : Z) : bytes :=
  firstn (Z.to_nat (elem_sz r)) (skipn (Z.to_nat (elem_sz r * idx)) (buf r)).

(** The stored elements from head to tail. *)
Definition contents (r : ringbuf) : list bytes :=
  map (fun i => slot r ((head r + Z.of_nat i) mod capacity r))
      (seq 0 (Z.to_nat (count r))).

(** [data] written over the beginning of the object [d]. *)
Definition overwrite (d data : bytes) : bytes := data ++ skipn (length data) d.

(** A 4-byte integer as it lies in memory (little endian). *)
Definition byte_of_Z (z : Z) : byte :=
  match Byte.of_N (Z.to_N z) with Some b => b | None => x00 end.

Definition le32 (v : Z) : bytes :=
  map (fun k => byte_of_Z ((v / 256 ^ k) mod 256)) [0; 1; 2; 3].

(** [elem_print_char] of ringbuf_test.c: prints the element as a
    character. *)
Definition elem_print_char : print_fn :=
  fun e => match e with
           | b :: _ => String (ascii_of_byte b) EmptyString
           | [] => EmptyString
           end.

(* ================================================================= *)
(** ** What one call does to the struct *)

(** The storage after [ringbuf_add_tail] copied [e] into the slot at
    [tail]: through the callback when one is installed, else [memcpy]. *)
Definition slot_store (r : ringbuf) (e : bytes) : outcome bytes :=
  let tp := size_mul (elem_sz r) (tail r) in
  match elem_copy r with
  | Some f =>
      match mem_read (buf r) tp (elem_sz r) with
      | Fault x => Fault x
      | Done slot => mem_write (buf r) tp (f slot e)
      end
  | None =>
      match mem_read e 0 (elem_sz r) with
      | Fault x => Fault x
      | Done src => mem_write (buf r) tp src
      end
  end.

(** The destination after [ringbuf_remove_head] copied the slot at [head]
    out: through the callback when one is installed, else [memcpy]. *)
Definition slot_fetch (r : ringbuf) (d : bytes) : outcome bytes :=
  let hp := size_mul (elem_sz r) (head r) in
  match mem_read (buf r) hp (elem_sz r) with
  | Fault x => Fault x
  | Done slot =>
      mem_write d 0 (match elem_copy r with
                     | Some f => f d slot
                     | None => slot
                     end)
  end.

(** The same for a destination that may be null. *)
Definition slot_fetch_opt (r : ringbuf) (d : option bytes)
  : outcome (option bytes) :=
  match d with
  | None => Done None
  | Some dst =>
      match slot_fetch r dst with
      | Fault x => Fault x
      | Done dst' => Done (Some dst')
      end
  end.

(** The storage after the [memset] of the slot at [head]. *)
Definition slot_clear (r : ringbuf) : outcome bytes :=
  mem_write (buf r) (size_mul (elem_sz r) (head r)) (zeros (elem_sz r)).

Definition after_add (r : ringbuf) (b : bytes) : ringbuf :=
  mk_ringbuf b (capacity r) (elem_sz r) (head r)
             (size_add (tail r) 1 mod capacity r) (size_add (count r) 1)
             (elem_copy r) (elem_print r).

Definition after_remove (r : ringbuf) (b : bytes) : ringbuf :=
  mk_ringbuf b (capacity r) (elem_sz r)
             (size_add (head r) 1 mod capacity r) (tail r)
             (size_sub (count r) 1)
             (elem_copy r) (elem_print r).

(** What [ringbuf_remove_head] hands to the destination [dst]: the slot at
    [head], through the callback when one is installed. *)
Definition element_out (r : ringbuf) (dst : bytes) : bytes :=
  match elem_copy r with
  | Some f => f dst (slot r (head r))
  | None => slot r (head r)
  end.

Definition copied (r : ringbuf) (d : option bytes) : option bytes :=
  match d with
  | None => None
  | Some dst => Some (overwrite dst (element_out r dst))
  end.

(** The destination object is large enough for what is written to it. *)
Definition dst_fits (r : ringbuf) (d : option bytes) : Prop :=
  match d with
  | None => True
  | Some dst => (length (element_out r dst) <= length dst)%nat
  end.

(** A queue of raw elements: the storage holds the slots, the indices obey
    the invariants where the capacity is positive, and elements are copied
    with [memcpy]. *)
Definition fifo_ready (r : ringbuf) : Prop :=
  storage_ok r /\ count_ok r /\
  (0 < capacity r -> index_ok r /\ tail_ok r) /\
  elem_copy r = None.

(* ================================================================= *)
(** ** Insertion, printing and the test's callbacks *)

(** What [ringbuf_add_tail] writes at the slot at [tail] for the element
    object [e]: what the callback makes of it when one is installed, else
    its first [elem_sz] bytes. *)
Definition element_in (r : ringbuf) (e : bytes) : bytes :=
  match elem_copy r with
  | Some f => f (slot r (tail r)) e
  | None => firstn (Z.to_nat (elem_sz r)) e
  end.

(** The element object holds what [memcpy] reads; what a callback writes
    stays inside the storage. *)
Definition src_fits (r : ringbuf) (e : bytes) : Prop :=
  match elem_copy r with
  | Some f =>
      elem_sz r * tail r + Z.of_nat (length (f (slot r (tail r)) e))
      <= Z.of_nat (length (buf r))
  | None => elem_sz r <= Z.of_nat (length e)
  end.



(** The C string that starts at [l]: the bytes before the first NUL. *)
Fixpoint cstr (l : bytes) : bytes :=
  match l with
  | [] => []
  | b :: l' => if Byte.eqb b x00 then [] else b :: cstr l'
  end.



Definition removes (ds : list bytes) : list call :=
  map (fun d => RemoveHead (Some d)) ds.

(** The slot at index [j] holds a stored element. *)
Definition occupied (r : ringbuf) (j : Z) : Prop :=
  exists k, 0 <= k < count r /\ j = (head r + k) mod capacity r.

(* ================================================================= *)
(** * Properties *)

Ltac unfold_monad := unfold bind, ret, get, modify, lift, printf.
Ltac size_solve :=
  unfold storage_ok, is_size, SIZE_MOD, SIZE_BITS; simpl; lia.

(** ** Machine arithmetic *)

Lemma SIZE_MOD_pos : 0 < SIZE_MOD.
Proof. reflexivity. Qed.

Lemma size_add_small a b : 0 <= a + b < SIZE_MOD -> size_add a b = a + b.
Proof. intros H. unfold size_add. apply Z.mod_small. exact H. Qed.

Lemma size_sub_small a b : 0 <= a - b < SIZE_MOD -> size_sub a b = a - b.
Proof. intros H. unfold size_sub. apply Z.mod_small. exact H. Qed.

Lemma size_mul_small a b : 0 <= a * b < SIZE_MOD -> size_mul a b = a * b.
Proof. intros H. unfold size_mul. apply Z.mod_small. exact H. Qed.

Lemma size_rem_pos a b : b <> 0 -> size_rem a b = Done (a mod b).
Proof.
  intros H. unfold size_rem.
  destruct (Z.eqb_spec b 0); [contradiction|reflexivity].
Qed.

Lemma size_mul_slot_bound r idx :
  covers r -> 0 <= idx < capacity r ->
  0 <= size_mul (elem_sz r) idx /\
  size_mul (elem_sz r) idx + elem_sz r <= Z.of_nat (length (buf r)).
Proof.
  intros (Hs & Hc & Hl) Hi. unfold size_mul.
  pose proof SIZE_MOD_pos as Hm.
  assert (H : 0 <= elem_sz r * idx) by (apply Z.mul_nonneg_nonneg; lia).
  pose proof (Z.mod_pos_bound (elem_sz r * idx) SIZE_MOD Hm).
  pose proof (Z.mod_le (elem_sz r * idx) SIZE_MOD H Hm).
  assert (elem_sz r * (idx + 1) <= elem_sz r * capacity r)
    by (apply Z.mul_le_mono_nonneg_l; lia).
  split; lia.
Qed.

(** ** The debug printing only writes to stdout *)

Lemma print_loop_rb fn n : forall i s u s',
  print_loop fn n i s = Done (u, s') -> rb s' = rb s.
Proof.
  induction n as [|n IH]; intros i s u s' H; simpl in H.
  - unfold ret in H. inversion H. reflexivity.
  - revert H. unfold_monad.
    destruct (size_rem _ _); [discriminate|].
    destruct (mem_read _ _ _); [discriminate|].
    intros H. apply IH in H. exact H.
Qed.

Lemma print_loop_div fn n : forall i s,
  print_loop fn n i s = Fault DivByZero -> capacity (rb s) = 0.
Proof.
  induction n as [|n IH]; intros i s H; simpl in H.
  - discriminate.
  - revert H. unfold_monad. unfold size_rem, mem_read.
    destruct (Z.eqb_spec (capacity (rb s)) 0) as [E|E]; [intros _; exact E|].
    destruct (_ <=? _); [|discriminate].
    intros H. apply IH in H. exact H.
Qed.

Lemma print_loop_ok fn n : forall i s,
  covers (rb s) ->
  exists out, print_loop fn n i s = Done (tt, mk_machine (rb s) out).
Proof.
  induction n as [|n IH]; intros i s Hc; simpl.
  - exists (stdout s). destruct s; reflexivity.
  - unfold_monad.
    assert (Hcap : capacity (rb s) <> 0) by (destruct Hc as (_ & ? & _); lia).
    rewrite (size_rem_pos _ _ Hcap).
    assert (Hi : 0 <= size_add (head (rb s)) i mod capacity (rb s) < capacity (rb s))
      by (apply Z.mod_pos_bound; destruct Hc as (_ & ? & _); lia).
    destruct (size_mul_slot_bound _ _ Hc Hi) as [_ Hb].
    unfold mem_read.
    destruct (Z.leb_spec (size_mul (elem_sz (rb s))
                 (size_add (head (rb s)) i mod capacity (rb s)) + elem_sz (rb s))
               (Z.of_nat (length (buf (rb s))))) as [_|Hcontra]; [|lia].
    match goal with |- exists out, print_loop fn n ?j ?s1 = _ =>
      destruct (IH j s1 Hc) as [out Hout] end.
    exists out. exact Hout.
Qed.

Lemma print_elems_rb fn s u s' :
  ringbuf_print_elems fn s = Done (u, s') -> rb s' = rb s.
Proof.
  unfold ringbuf_print_elems. unfold bind at 1. unfold get. unfold bind.
  destruct (print_loop _ _ _ _) as [f|[[] s1]] eqn:E; [discriminate|].
  unfold printf. intros H. inversion H. simpl.
  apply print_loop_rb in E. exact E.
Qed.

Lemma print_elems_div fn s :
  ringbuf_print_elems fn s = Fault DivByZero -> capacity (rb s) = 0.
Proof.
  unfold ringbuf_print_elems. unfold bind at 1. unfold get. unfold bind.
  destruct (print_loop _ _ _ _) as [f|[[] s1]] eqn:E.
  - intros H. inversion H. subst f. apply print_loop_div in E. exact E.
  - unfold printf. discriminate.
Qed.

Lemma print_elems_ok fn s :
  covers (rb s) ->
  exists out, ringbuf_print_elems fn s = Done (tt, mk_machine (rb s) out).
Proof.
  intros Hc. unfold ringbuf_print_elems. unfold bind at 1. unfold get. unfold bind.
  destruct (print_loop_ok fn (Z.to_nat (count (rb s))) 0 s Hc) as [out ->].
  unfold printf. simpl. eexists. reflexivity.
Qed.

Lemma debug_add_tail_rb e s u s' :
  debug_add_tail e s = Done (u, s') -> rb s' = rb s.
Proof.
  unfold debug_add_tail. unfold bind at 1. unfold get.
  destruct (elem_print (rb s)) as [p|].
  - unfold bind, printf. intros H. apply print_elems_rb in H. exact H.
  - unfold ret. intros H. inversion H. reflexivity.
Qed.

Lemma debug_add_tail_div e s :
  debug_add_tail e s = Fault DivByZero -> capacity (rb s) = 0.
Proof.
  unfold debug_add_tail. unfold bind at 1. unfold get.
  destruct (elem_print (rb s)) as [p|].
  - unfold bind, printf. intros H. apply print_elems_div in H. exact H.
  - discriminate.
Qed.

Lemma debug_add_tail_ok e s :
  covers (rb s) ->
  exists out, debug_add_tail e s = Done (tt, mk_machine (rb s) out).
Proof.
  intros Hc. unfold debug_add_tail. unfold bind at 1. unfold get.
  destruct (elem_print (rb s)) as [p|].
  - unfold bind, printf.
    match goal with |- exists out, ringbuf_print_elems p ?s1 = _ =>
      destruct (print_elems_ok p s1 Hc) as [out Hout] end.
    exists out. exact Hout.
  - exists (stdout s). destruct s; reflexivity.
Qed.

Lemma debug_add_tail_quiet e s :
  elem_print (rb s) = None -> debug_add_tail e s = Done (tt, s).
Proof.
  intros H. unfold debug_add_tail. unfold bind, get. rewrite H. reflexivity.
Qed.

Lemma debug_removed_elem_ok d s :
  exists out, debug_removed_elem d s = Done (tt, mk_machine (rb s) out) /\
              (elem_print (rb s) = None -> out = stdout s).
Proof.
  unfold debug_removed_elem. unfold bind at 1. unfold get.
  destruct (elem_print (rb s)) as [p|].
  - unfold bind, printf. simpl. eexists. split; [reflexivity|discriminate].
  - exists (stdout s). split; [destruct s; reflexivity|reflexivity].
Qed.

Lemma debug_remove_head_rb s u s' :
  debug_remove_head s = Done (u, s') -> rb s' = rb s.
Proof.
  unfold debug_remove_head. unfold bind at 1. unfold get.
  destruct (elem_print (rb s)) as [p|].
  - apply print_elems_rb.
  - unfold ret. intros H. inversion H. reflexivity.
Qed.

Lemma debug_remove_head_div s :
  debug_remove_head s = Fault DivByZero -> capacity (rb s) = 0.
Proof.
  unfold debug_remove_head. unfold bind at 1. unfold get.
  destruct (elem_print (rb s)) as [p|].
  - apply print_elems_div.
  - discriminate.
Qed.

Lemma debug_remove_head_ok s :
  covers (rb s) ->
  exists out, debug_remove_head s = Done (tt, mk_machine (rb s) out).
Proof.
  intros Hc. unfold debug_remove_head. unfold bind at 1. unfold get.
  destruct (elem_print (rb s)) as [p|].
  - apply print_elems_ok. exact Hc.
  - exists (stdout s). destruct s; reflexivity.
Qed.

Lemma debug_remove_head_quiet s :
  elem_print (rb s) = None -> debug_remove_head s = Done (tt, s).
Proof.
  intros H. unfold debug_remove_head. unfold bind, get. rewrite H. reflexivity.
Qed.

(** ** The operations, statement by statement *)

Lemma add_tail_eq e s :
  ringbuf_add_tail (Some e) s =
  if count (rb s) =? capacity (rb s) then Done (RB_ERR, s) else
  match slot_store (rb s) e with
  | Fault x => Fault x
  | Done b =>
      if capacity (rb s) =? 0 then Fault DivByZero else
      match debug_add_tail e (mk_machine (after_add (rb s) b) (stdout s)) with
      | Fault x => Fault x
      | Done (_, s2) => Done (RB_OK, s2)
      end
  end.
Proof.
  unfold ringbuf_add_tail, ringbuf_full, slot_store, size_rem.
  unfold bind, ret, get, modify, lift.
  destruct (count (rb s) =? capacity (rb s)); simpl; [reflexivity|].
  destruct (elem_copy (rb s)) as [f|].
  - destruct (mem_read _ _ _) as [x|sl]; [reflexivity|].
    destruct (mem_write _ _ _) as [x|b]; [reflexivity|]. simpl.
    destruct (capacity (rb s) =? 0); reflexivity.
  - destruct (mem_read _ _ _) as [x|sl]; [reflexivity|].
    destruct (mem_write _ _ _) as [x|b]; [reflexivity|]. simpl.
    destruct (capacity (rb s) =? 0); reflexivity.
Qed.

Lemma remove_head_eq d s :
  exists out,
    (elem_print (rb s) = None -> out = stdout s) /\
    ringbuf_remove_head d s =
    if 0 =? count (rb s) then Done ((RB_ERR, d), s) else
    match slot_fetch_opt (rb s) d with
    | Fault x => Fault x
    | Done d' =>
        match slot_clear (rb s) with
        | Fault x => Fault x
        | Done b =>
            if capacity (rb s) =? 0 then Fault DivByZero else
            match debug_remove_head
                    (mk_machine (after_remove (rb s) b) out) with
            | Fault x => Fault x
            | Done (_, s2) => Done ((RB_OK, d'), s2)
            end
        end
    end.
Proof.
  unfold ringbuf_remove_head, ringbuf_empty, slot_fetch_opt, slot_fetch,
    slot_clear, size_rem.
  unfold bind at 1 2. unfold get at 1. unfold ret at 1.
  destruct (0 =? count (rb s)); simpl.
  { exists (stdout s). split; reflexivity. }
  unfold bind at 1. unfold get at 1. unfold bind at 1.
  destruct d as [dst|].
  - unfold bind at 1 2.
    assert (Hcp : forall r0,
      (match elem_copy (rb s) with
       | Some f =>
           sl <- lift (mem_read (buf (rb s))
                   (size_mul (elem_sz (rb s)) (head (rb s))) (elem_sz (rb s))) ;;
           lift (mem_write dst 0 (f dst sl))
       | None =>
           sl <- lift (mem_read (buf (rb s))
                   (size_mul (elem_sz (rb s)) (head (rb s))) (elem_sz (rb s))) ;;
           lift (mem_write dst 0 sl)
       end) s = r0 ->
      r0 = match mem_read (buf (rb s))
                   (size_mul (elem_sz (rb s)) (head (rb s))) (elem_sz (rb s)) with
           | Fault x => Fault x
           | Done sl =>
               match mem_write dst 0 (match elem_copy (rb s) with
                                      | Some f => f dst sl
                                      | None => sl
                                      end) with
               | Fault x => Fault x
               | Done dst' => Done (dst', s)
               end
           end).
    { intros r0 <-. unfold bind, lift.
      destruct (elem_copy (rb s)); destruct (mem_read _ _ _); reflexivity. }
    match goal with |- context [match ?c s with _ => _ end] =>
      rewrite (Hcp (c s) eq_refl) end.
    clear Hcp.
    destruct (mem_read _ _ _) as [x|sl].
    { exists (stdout s). split; reflexivity. }
    destruct (mem_write dst 0 _) as [x|dst'].
    { exists (stdout s). split; reflexivity. }
    unfold bind at 1.
    destruct (debug_removed_elem_ok dst' s) as (out & -> & Hq).
    exists out. split; [exact Hq|].
    unfold ret at 1. unfold bind, lift, modify, get. simpl.
    destruct (mem_write (buf (rb s)) _ _) as [x|b]; [reflexivity|]. simpl.
    destruct (capacity (rb s) =? 0); reflexivity.
  - exists (stdout s). split; [reflexivity|].
    unfold ret at 1. unfold bind, lift, modify, get. simpl.
    destruct (mem_write (buf (rb s)) _ _) as [x|b]; [reflexivity|]. simpl.
    destruct (capacity (rb s) =? 0); [reflexivity|].
    destruct s; reflexivity.
Qed.

(** What a call that returned has done to the struct. *)
Lemma add_tail_cases e s rc s' :
  ringbuf_add_tail e s = Done (rc, s') ->
  (s' = s /\ (e = None /\ rc = RB_OK \/
              e <> None /\ rc = RB_ERR /\ count (rb s) = capacity (rb s))) \/
  (rc = RB_OK /\ count (rb s) <> capacity (rb s) /\ capacity (rb s) <> 0 /\
   exists x b, e = Some x /\ slot_store (rb s) x = Done b /\
               rb s' = after_add (rb s) b).
Proof.
  destruct e as [x|].
  - rewrite add_tail_eq.
    destruct (Z.eqb_spec (count (rb s)) (capacity (rb s))) as [Hf|Hf].
    + intros H. inversion H. subst. left. split; [reflexivity|].
      right. repeat split; [discriminate|exact Hf].
    + destruct (slot_store (rb s) x) as [f|b] eqn:Es; [discriminate|].
      destruct (Z.eqb_spec (capacity (rb s)) 0) as [Hz|Hz]; [discriminate|].
      destruct (debug_add_tail _ _) as [f|[[] s2]] eqn:E; [discriminate|].
      intros H. inversion H. subst. right.
      apply debug_add_tail_rb in E. simpl in E.
      repeat split; try assumption. exists x, b. repeat split; assumption.
  - unfold ringbuf_add_tail, ret. intros H. inversion H. subst.
    left. split; [reflexivity|]. left. split; reflexivity.
Qed.

Lemma remove_head_cases d s rc d' s' :
  ringbuf_remove_head d s = Done ((rc, d'), s') ->
  (s' = s /\ rc = RB_ERR /\ d' = d /\ count (rb s) = 0) \/
  (rc = RB_OK /\ count (rb s) <> 0 /\ capacity (rb s) <> 0 /\
   slot_fetch_opt (rb s) d = Done d' /\
   exists b, slot_clear (rb s) = Done b /\ rb s' = after_remove (rb s) b).
Proof.
  destruct (remove_head_eq d s) as (out & _ & ->).
  destruct (Z.eqb_spec 0 (count (rb s))) as [He|He].
  - intros H. inversion H. subst. left. repeat split. symmetry. exact He.
  - destruct (slot_fetch_opt (rb s) d) as [f|x] eqn:Ef; [discriminate|].
    destruct (slot_clear (rb s)) as [f|b] eqn:Ec; [discriminate|].
    destruct (Z.eqb_spec (capacity (rb s)) 0) as [Hz|Hz]; [discriminate|].
    destruct (debug_remove_head _) as [f|[[] s2]] eqn:E; [discriminate|].
    intros H. inversion H. subst. right.
    apply debug_remove_head_rb in E. simpl in E.
    repeat split; try assumption; try congruence.
    exists b. split; [reflexivity|exact E].
Qed.

Lemma step_cases s s' :
  step s s' ->
  rb s' = rb s \/
  (count (rb s) <> capacity (rb s) /\ capacity (rb s) <> 0 /\
   exists b, rb s' = after_add (rb s) b) \/
  (count (rb s) <> 0 /\ capacity (rb s) <> 0 /\
   exists b, rb s' = after_remove (rb s) b).
Proof.
  intros [e rc s0 s0' H | d [rc d'] s0 s0' H].
  - apply add_tail_cases in H.
    destruct H as [[-> _] | (_ & Hf & Hz & x & b & _ & _ & Hr)].
    + left. reflexivity.
    + right. left. repeat split; try assumption. exists b. exact Hr.
  - apply remove_head_cases in H.
    destruct H as [(-> & _) | (_ & He & Hz & _ & b & _ & Hr)].
    + left. reflexivity.
    + right. right. repeat split; try assumption. exists b. exact Hr.
Qed.

(** ** The index invariants *)

Lemma inv_after_add r b :
  is_size (capacity r) -> ringbuf_inv r -> count r <> capacity r ->
  ringbuf_inv (after_add r b).
Proof.
  intros [_ Hcap] (Hc & [Hh Ht] & Htl) Hf.
  unfold ringbuf_inv, count_ok, index_ok, tail_ok in *. simpl.
  rewrite (size_add_small (tail r) 1) by lia.
  rewrite (size_add_small (count r) 1) by lia.
  repeat split; try lia; try (apply Z.mod_pos_bound; lia).
  rewrite Htl. rewrite Z.add_mod_idemp_l by lia.
  f_equal. lia.
Qed.

Lemma inv_after_remove r b :
  is_size (capacity r) -> ringbuf_inv r -> count r <> 0 ->
  ringbuf_inv (after_remove r b).
Proof.
  intros [_ Hcap] (Hc & [Hh Ht] & Htl) He.
  unfold ringbuf_inv, count_ok, index_ok, tail_ok in *. simpl.
  rewrite (size_add_small (head r) 1) by lia.
  rewrite (size_sub_small (count r) 1) by lia.
  repeat split; try lia; try (apply Z.mod_pos_bound; lia).
  rewrite Htl. rewrite Z.add_mod_idemp_l by lia.
  f_equal. lia.
Qed.

Lemma step_inv s s' :
  is_size (capacity (rb s)) -> ringbuf_inv (rb s) -> step s s' ->
  ringbuf_inv (rb s').
Proof.
  intros Hs Hi H. apply step_cases in H.
  destruct H as [-> | [(Hf & _ & b & ->) | (He & _ & b & ->)]].
  - exact Hi.
  - apply inv_after_add; assumption.
  - apply inv_after_remove; assumption.
Qed.

Lemma step_capacity s s' : step s s' -> capacity (rb s') = capacity (rb s).
Proof.
  intros H. apply step_cases in H.
  destruct H as [-> | [(_ & _ & b & ->) | (_ & _ & b & ->)]]; reflexivity.
Qed.

Lemma step_count_zero s s' :
  capacity (rb s) = 0 -> count (rb s) = 0 -> step s s' -> rb s' = rb s.
Proof.
  intros Hz Hc H. apply step_cases in H.
  destruct H as [H | [(Hf & Hn & _) | (He & _)]];
    [exact H | contradiction | contradiction].
Qed.

Lemma init_ok_inv r0 b n_elem elem_size r :
  ringbuf_init r0 b n_elem elem_size = (RB_OK, Some r) ->
  exists storage, b = Some storage /\
    r = mk_ringbuf storage n_elem elem_size 0 0 0 None None.
Proof.
  unfold ringbuf_init. destruct r0 as [x|]; [|discriminate].
  destruct b as [storage|]; [|discriminate].
  intros H. inversion H. exists storage. split; reflexivity.
Qed.

Lemma reachable_facts n_elem elem_size s :
  reachable n_elem elem_size s ->
  is_size n_elem /\ capacity (rb s) = n_elem /\ count_ok (rb s) /\
  (0 < n_elem -> ringbuf_inv (rb s)) /\
  (n_elem = 0 -> count (rb s) = 0).
Proof.
  induction 1 as [r0 b r out Hn He Hi | s s' Hr IH Hs].
  - apply init_ok_inv in Hi. destruct Hi as (storage & _ & ->). simpl.
    unfold ringbuf_inv, count_ok, index_ok, tail_ok. simpl.
    destruct Hn as [Hn0 Hn1].
    repeat split; lia.
  - destruct IH as (Hn & Hc & Hk & Hp & Hz).
    pose proof (step_capacity _ _ Hs) as Hcap.
    split; [exact Hn|]. split; [congruence|].
    destruct (Z.eq_dec n_elem 0) as [E|E].
    + assert (Hrb : rb s' = rb s)
        by (apply step_count_zero; [congruence | auto | exact Hs]).
      rewrite Hrb. split; [exact Hk|]. split; [intros; lia|exact Hz].
    + assert (Hpos : 0 < n_elem) by (destruct Hn; lia).
      assert (Hi' : ringbuf_inv (rb s')).
      { apply (step_inv s s'); auto. rewrite Hc. exact Hn. }
      split; [apply Hi'|]. split; [intros _; exact Hi'|intros; contradiction].
Qed.

(** C1, as stated, fails on the code: [ringbuf_init] accepts a capacity of
    0, and then head = tail = 0 is no index in the empty range [0, 0). *)
Lemma inv_fails_at_capacity_zero :
  let r := mk_ringbuf [x00; x00; x00; x00] 0 4 0 0 0 None None in
  ringbuf_init (Some r) (Some [x00; x00; x00; x00]) 0 4 = (RB_OK, Some r) /\
  reachable 0 4 (boot r) /\
  ~ ringbuf_inv r.
Proof.
  intros r. split; [reflexivity|]. split.
  - apply (reach_init 0 4 (Some r) (Some [x00; x00; x00; x00]) r EmptyString).
    + split; [lia|reflexivity].
    + split; [lia|reflexivity].
    + reflexivity.
  - intros (_ & [Hh _] & _). simpl in Hh. lia.
Qed.

(** C1, amended: in every state reachable from a successful
    [ringbuf_init] by [ringbuf_add_tail] and [ringbuf_remove_head],
    0 <= count <= capacity; when the capacity is positive, head and tail
    are indices in [0, capacity) and tail = (head + count) mod capacity;
    and every operation preserves these invariants. *)
Theorem invariants_hold :
  (forall n_elem elem_size s,
     reachable n_elem elem_size s ->
     capacity (rb s) = n_elem /\ count_ok (rb s) /\
     (0 < n_elem -> ringbuf_inv (rb s))) /\
  (forall s s',
     is_size (capacity (rb s)) -> ringbuf_inv (rb s) -> step s s' ->
     ringbuf_inv (rb s')).
Proof.
  split.
  - intros n_elem elem_size s H.
    destruct (reachable_facts _ _ _ H) as (_ & Hc & Hk & Hp & _).
    split; [exact Hc|]. split; [exact Hk|exact Hp].
  - exact step_inv.
Qed.

Lemma invariants_hold_witness :
  let r := mk_ringbuf [x00; x00] 2 1 0 0 0 None None in
  let r' := mk_ringbuf [x07; x00] 2 1 0 1 1 None None in
  reachable 2 1 (boot r') /\ ringbuf_inv (rb (boot r')) /\
  (step (boot r) (boot r') -> ringbuf_inv (rb (boot r'))).
Proof.
  intros r r'.
  assert (Hs : step (boot r) (boot r'))
    by (apply (step_add (Some [x07]) 0); reflexivity).
  assert (Hr : reachable 2 1 (boot r)).
  { apply (reach_init 2 1 (Some r) (Some [x00; x00]) r EmptyString);
      [split; [lia|reflexivity] | split; [lia|reflexivity] | reflexivity]. }
  assert (Hr' : reachable 2 1 (boot r')) by (apply (reach_step 2 1 _ _ Hr Hs)).
  destruct invariants_hold as [Hreach Hstep].
  split; [exact Hr'|]. split.
  - apply (Hreach 2 1 (boot r') Hr'). lia.
  - intros Hs'. apply (Hstep (boot r) (boot r')).
    + split; [simpl; lia | reflexivity].
    + apply (Hreach 2 1 (boot r) Hr). lia.
    + exact Hs'.
Defined.

(** ** Queries *)

(** C7: [ringbuf_full] returns true iff [count == capacity],
    [ringbuf_empty] returns true iff [count == 0], both leave the machine
    as it was, and with [capacity > 0] they are never both true. *)
Theorem full_empty_queries (s : machine) :
  exists f e,
    ringbuf_full s = Done (f, s) /\
    ringbuf_empty s = Done (e, s) /\
    (truthy f <-> count (rb s) = capacity (rb s)) /\
    (truthy e <-> count (rb s) = 0) /\
    (0 < capacity (rb s) -> ~ (truthy f /\ truthy e)).
Proof.
  exists (if count (rb s) =? capacity (rb s) then 1 else 0).
  exists (if 0 =? count (rb s) then 1 else 0).
  unfold ringbuf_full, ringbuf_empty, truthy. unfold_monad.
  destruct (Z.eqb_spec (count (rb s)) (capacity (rb s))) as [Hf|Hf];
    destruct (Z.eqb_spec 0 (count (rb s))) as [He|He];
    repeat split; intros; try lia; try congruence.
Qed.

Lemma full_empty_queries_witness :
  let s := boot (mk_ringbuf [x00; x00] 2 1 0 1 1 None None) in
  exists f e,
    ringbuf_full s = Done (f, s) /\
    ringbuf_empty s = Done (e, s) /\
    (truthy f <-> count (rb s) = capacity (rb s)) /\
    (truthy e <-> count (rb s) = 0) /\
    ~ (truthy f /\ truthy e).
Proof.
  intros s.
  destruct (full_empty_queries s) as (f & e & Hf & He & Hft & Het & Hex).
  exists f, e. repeat split; try assumption; try apply Hft; try apply Het.
  apply Hex. reflexivity.
Defined.

(** ** Error paths *)

Lemma add_tail_when_full s e :
  count (rb s) = capacity (rb s) ->
  ringbuf_add_tail (Some e) s = Done (RB_ERR, s).
Proof.
  intros H. unfold ringbuf_add_tail, ringbuf_full. unfold_monad.
  rewrite H, Z.eqb_refl. reflexivity.
Qed.

Lemma remove_head_when_empty s d :
  count (rb s) = 0 ->
  ringbuf_remove_head d s = Done ((RB_ERR, d), s).
Proof.
  intros H. unfold ringbuf_remove_head, ringbuf_empty. unfold_monad.
  rewrite H. reflexivity.
Qed.

(** C3: with [count == capacity] and a non-null element,
    [ringbuf_add_tail] returns -1 (full) and the machine, hence count,
    head, tail and every stored byte, is what it was. *)
Theorem add_tail_full (s : machine) (e : bytes) :
  count (rb s) = capacity (rb s) ->
  ringbuf_add_tail (Some e) s = Done (RB_ERR, s) /\
  forall rc s', ringbuf_add_tail (Some e) s = Done (rc, s') ->
    rc = -1 /\
    count (rb s') = count (rb s) /\ head (rb s') = head (rb s) /\
    tail (rb s') = tail (rb s) /\ buf (rb s') = buf (rb s).
Proof.
  intros H. rewrite (add_tail_when_full s e H). split; [reflexivity|].
  intros rc s' E. inversion E. subst. repeat split.
Qed.

Lemma add_tail_full_witness :
  let s := boot (mk_ringbuf [x01; x02] 2 1 0 0 2 None None) in
  ringbuf_add_tail (Some [x03]) s = Done (RB_ERR, s).
Proof. intros s. apply (add_tail_full s [x03]). reflexivity. Defined.

(** C4: with [count == 0], [ringbuf_remove_head] returns -1 (empty) for a
    present or a null destination; the machine (count, head, tail, every
    byte of the storage) and the destination are what they were. *)
Theorem remove_head_empty (s : machine) (d : option bytes) :
  count (rb s) = 0 ->
  ringbuf_remove_head d s = Done ((RB_ERR, d), s) /\
  forall rc d' s', ringbuf_remove_head d s = Done ((rc, d'), s') ->
    rc = -1 /\
    count (rb s') = count (rb s) /\ head (rb s') = head (rb s) /\
    tail (rb s') = tail (rb s) /\ buf (rb s') = buf (rb s).
Proof.
  intros H. rewrite (remove_head_when_empty s d H). split; [reflexivity|].
  intros rc d' s' E. inversion E. subst. repeat split.
Qed.

Lemma remove_head_empty_witness :
  let s := boot (mk_ringbuf [x01; x02] 2 1 1 1 0 None None) in
  ringbuf_remove_head (Some [x07]) s = Done ((RB_ERR, Some [x07]), s) /\
  ringbuf_remove_head None s = Done ((RB_ERR, None), s).
Proof.
  intros s. split.
  - apply (remove_head_empty s (Some [x07])). reflexivity.
  - apply (remove_head_empty s None). reflexivity.
Defined.

(** C5: [ringbuf_add_tail] with a null element returns 0 and changes
    nothing (count, head, tail, the stored bytes), whatever the state, a
    full buffer included. *)
Theorem add_tail_null (s : machine) :
  ringbuf_add_tail None s = Done (RB_OK, s) /\
  (count (rb s) = capacity (rb s) ->
   ringbuf_add_tail None s = Done (0, s)).
Proof. split; [reflexivity|intros _; reflexivity]. Qed.

Lemma add_tail_null_witness :
  let s := boot (mk_ringbuf [x01; x02] 2 1 0 0 2 None None) in
  ringbuf_add_tail None s = Done (0, s).
Proof. intros s. apply (add_tail_null s). reflexivity. Defined.

(** ** Initialisation *)

(** C6, as stated, fails on the code: with a null [rb] and a non-null
    storage [ringbuf_init] returns -1. *)
Lemma init_null_rb_fails :
  Some [x00; x00; x00; x00] <> None /\
  ringbuf_init None (Some [x00; x00; x00; x00]) 1 4 = (RB_ERR, None).
Proof. split; [discriminate|reflexivity]. Qed.

(** C6, amended: [ringbuf_init] returns -1 exactly when [rb] or the storage
    is null; otherwise, for every capacity and element size, zero included,
    it returns 0 and [rb] holds head = tail = count = 0 and no callbacks. *)
Theorem init_spec (r : option ringbuf) (b : option bytes) (n_elem elem_size : Z) :
  (fst (ringbuf_init r b n_elem elem_size) = RB_ERR <-> r = None \/ b = None) /\
  (forall r0 storage, r = Some r0 -> b = Some storage ->
     exists r', ringbuf_init r b n_elem elem_size = (RB_OK, Some r') /\
       buf r' = storage /\ capacity r' = n_elem /\ elem_sz r' = elem_size /\
       head r' = 0 /\ tail r' = 0 /\ count r' = 0 /\
       elem_copy r' = None /\ elem_print r' = None).
Proof.
  split.
  - destruct r, b; simpl; split; intros H; try discriminate; auto;
      destruct H; discriminate.
  - intros r0 storage -> ->. simpl. eexists. split; [reflexivity|].
    simpl. repeat split.
Qed.

Lemma init_spec_witness :
  exists r', ringbuf_init (Some (mk_ringbuf [] 7 7 7 7 7 None None))
                          (Some [x00; x00]) 0 0 = (RB_OK, Some r') /\
    head r' = 0 /\ tail r' = 0 /\ count r' = 0 /\
    elem_copy r' = None /\ elem_print r' = None.
Proof.
  destruct (init_spec (Some (mk_ringbuf [] 7 7 7 7 7 None None))
                      (Some [x00; x00]) 0 0) as [_ H].
  destruct (H _ _ eq_refl eq_refl) as (r' & Hi & _ & _ & _ & Hh & Ht & Hc & Hf & Hp).
  exists r'. repeat split; assumption.
Defined.

(** ** No remainder by zero *)

Lemma mem_read_fault m off n f : mem_read m off n = Fault f -> f = OutOfBounds.
Proof.
  unfold mem_read. destruct (_ <=? _); [discriminate|].
  intros H. inversion H. reflexivity.
Qed.

Lemma mem_write_fault m off data f :
  mem_write m off data = Fault f -> f = OutOfBounds.
Proof.
  unfold mem_write. destruct (_ <=? _); [discriminate|].
  intros H. inversion H. reflexivity.
Qed.

Lemma slot_store_fault r e f : slot_store r e = Fault f -> f = OutOfBounds.
Proof.
  unfold slot_store. destruct (elem_copy r).
  - destruct (mem_read _ _ _) eqn:E.
    + intros H. inversion H. subst. apply mem_read_fault in E. exact E.
    + apply mem_write_fault.
  - destruct (mem_read _ _ _) eqn:E.
    + intros H. inversion H. subst. apply mem_read_fault in E. exact E.
    + apply mem_write_fault.
Qed.

Lemma slot_fetch_opt_fault r d f :
  slot_fetch_opt r d = Fault f -> f = OutOfBounds.
Proof.
  unfold slot_fetch_opt, slot_fetch. destruct d as [dst|]; [|discriminate].
  destruct (mem_read _ _ _) eqn:E.
  - intros H. inversion H. subst. apply mem_read_fault in E. exact E.
  - destruct (mem_write _ _ _) eqn:E'; [|discriminate].
    intros H. inversion H. subst. apply mem_write_fault in E'. exact E'.
Qed.

Lemma add_tail_div e s :
  ringbuf_add_tail e s = Fault DivByZero ->
  capacity (rb s) = 0 /\ count (rb s) <> capacity (rb s).
Proof.
  destruct e as [x|]; [|discriminate].
  rewrite add_tail_eq.
  destruct (Z.eqb_spec (count (rb s)) (capacity (rb s))) as [Hf|Hf];
    [discriminate|].
  destruct (slot_store (rb s) x) as [f|b] eqn:Es.
  - intros H. inversion H. subst. apply slot_store_fault in Es. discriminate.
  - destruct (Z.eqb_spec (capacity (rb s)) 0) as [Hz|Hz]; [auto|].
    destruct (debug_add_tail _ _) as [f|[[] s2]] eqn:E; [|discriminate].
    intros H. inversion H. subst.
    apply debug_add_tail_div in E. simpl in E. contradiction.
Qed.

Lemma remove_head_div d s :
  ringbuf_remove_head d s = Fault DivByZero ->
  capacity (rb s) = 0 /\ count (rb s) <> 0.
Proof.
  destruct (remove_head_eq d s) as (out & _ & ->).
  destruct (Z.eqb_spec 0 (count (rb s))) as [He|He]; [discriminate|].
  destruct (slot_fetch_opt (rb s) d) as [f|x] eqn:Ef.
  - intros H. inversion H. subst. apply slot_fetch_opt_fault in Ef. discriminate.
  - destruct (slot_clear (rb s)) as [f|b] eqn:Ec.
    + intros H. inversion H. subst. apply mem_write_fault in Ec. discriminate.
    + destruct (Z.eqb_spec (capacity (rb s)) 0) as [Hz|Hz]; [auto|].
      destruct (debug_remove_head _) as [f|[[] s2]] eqn:E; [|discriminate].
      intros H. inversion H. subst.
      apply debug_remove_head_div in E. simpl in E. contradiction.
Qed.

(** C10: a buffer initialised with capacity 0 stays full and empty:
    [ringbuf_add_tail] with a non-null element returns -1 and
    [ringbuf_remove_head] returns -1, always; hence, for any capacity, no
    call on a reachable state evaluates a remainder by zero. *)
Theorem capacity_zero_safe :
  (forall elem_size s,
     reachable 0 elem_size s ->
     (forall e, ringbuf_add_tail (Some e) s = Done (RB_ERR, s)) /\
     (forall d, ringbuf_remove_head d s = Done ((RB_ERR, d), s))) /\
  (forall n_elem elem_size s,
     reachable n_elem elem_size s ->
     forall e d,
       ringbuf_add_tail e s <> Fault DivByZero /\
       ringbuf_remove_head d s <> Fault DivByZero).
Proof.
  split.
  - intros elem_size s H.
    destruct (reachable_facts _ _ _ H) as (_ & Hc & _ & _ & Hz).
    specialize (Hz eq_refl). split.
    + intros e. apply add_tail_when_full. congruence.
    + intros d. apply remove_head_when_empty. exact Hz.
  - intros n_elem elem_size s H e d.
    destruct (reachable_facts _ _ _ H) as (_ & Hc & _ & _ & Hz).
    split; intros E.
    + apply add_tail_div in E. destruct E as [E0 En].
      apply En. rewrite E0. apply Hz. congruence.
    + apply remove_head_div in E. destruct E as [E0 En].
      apply En. apply Hz. congruence.
Qed.

Lemma capacity_zero_safe_witness :
  let r := mk_ringbuf [x00; x00; x00; x00] 0 4 0 0 0 None None in
  ringbuf_add_tail (Some [x01; x00; x00; x00]) (boot r) = Done (RB_ERR, boot r) /\
  ringbuf_remove_head (Some [x00; x00; x00; x00]) (boot r)
    = Done ((RB_ERR, Some [x00; x00; x00; x00]), boot r) /\
  ringbuf_add_tail (Some [x01; x00; x00; x00]) (boot r) <> Fault DivByZero.
Proof.
  intros r.
  assert (Hr : reachable 0 4 (boot r)).
  { apply (reach_init 0 4 (Some r) (Some [x00; x00; x00; x00]) r EmptyString);
      [split; [lia|reflexivity] | split; [lia|reflexivity] | reflexivity]. }
  destruct capacity_zero_safe as [Hz Hd].
  destruct (Hz 4 (boot r) Hr) as [Ha Hm].
  split; [apply Ha|]. split; [apply Hm|].
  apply (Hd 0 4 (boot r) Hr (Some [x01; x00; x00; x00]) None).
Defined.

(** ** Reading and writing windows of an object *)

Lemma window_ext (l1 l2 : bytes) (o n : nat) :
  (forall k, (o <= k < o + n)%nat -> nth_error l1 k = nth_error l2 k) ->
  firstn n (skipn o l1) = firstn n (skipn o l2).
Proof.
  intros H. apply nth_error_ext. intros i.
  rewrite !nth_error_firstn, !nth_error_skipn.
  destruct (Nat.ltb_spec i n) as [Hi|Hi]; [|reflexivity].
  apply H. lia.
Qed.

Lemma mem_write_nth m off data m' :
  0 <= off -> mem_write m off data = Done m' ->
  length m' = length m /\
  forall k, nth_error m' k =
    if (k <? Z.to_nat off)%nat then nth_error m k
    else if (k <? Z.to_nat off + length data)%nat
         then nth_error data (k - Z.to_nat off)
         else nth_error m k.
Proof.
  intros Hoff. unfold mem_write.
  destruct (Z.leb_spec (off + Z.of_nat (length data)) (Z.of_nat (length m)))
    as [Hle|Hle]; [|discriminate].
  intros H. inversion H. subst m'. clear H.
  assert (Hlen : length (firstn (Z.to_nat off) m) = Z.to_nat off)
    by (rewrite length_firstn; lia).
  split.
  - rewrite !length_app, Hlen, length_skipn. lia.
  - intros k. rewrite nth_error_app, Hlen.
    destruct (Nat.ltb_spec k (Z.to_nat off)) as [Hk|Hk].
    + rewrite nth_error_firstn.
      destruct (Nat.ltb_spec k (Z.to_nat off)); [reflexivity|lia].
    + rewrite nth_error_app.
      destruct (Nat.ltb_spec (k - Z.to_nat off) (length data)) as [Hd|Hd];
        destruct (Nat.ltb_spec k (Z.to_nat off + length data)) as [Hd'|Hd'];
        try lia; [reflexivity|].
      rewrite nth_error_skipn. f_equal. lia.
Qed.

Lemma mem_write_fits m off data :
  0 <= off -> off + Z.of_nat (length data) <= Z.of_nat (length m) ->
  exists m', mem_write m off data = Done m'.
Proof.
  intros Hoff Hle. unfold mem_write.
  destruct (Z.leb_spec (off + Z.of_nat (length data)) (Z.of_nat (length m)));
    [eexists; reflexivity|lia].
Qed.

Lemma mem_write_window m off data m' :
  0 <= off -> mem_write m off data = Done m' ->
  firstn (length data) (skipn (Z.to_nat off) m') = data.
Proof.
  intros Hoff H. destruct (mem_write_nth _ _ _ _ Hoff H) as [_ Hn].
  apply nth_error_ext. intros i.
  rewrite nth_error_firstn, nth_error_skipn, Hn.
  destruct (Nat.ltb_spec i (length data)) as [Hi|Hi].
  - destruct (Nat.ltb_spec (Z.to_nat off + i) (Z.to_nat off)); [lia|].
    destruct (Nat.ltb_spec (Z.to_nat off + i) (Z.to_nat off + length data));
      [|lia].
    f_equal. lia.
  - symmetry. apply nth_error_None. exact Hi.
Qed.

Lemma mem_write_other m off data m' (o n : nat) :
  0 <= off -> mem_write m off data = Done m' ->
  (o + n <= Z.to_nat off \/ Z.to_nat off + length data <= o)%nat ->
  firstn n (skipn o m') = firstn n (skipn o m).
Proof.
  intros Hoff H Hd. destruct (mem_write_nth _ _ _ _ Hoff H) as [_ Hn].
  apply window_ext. intros k Hk. rewrite Hn.
  destruct (Nat.ltb_spec k (Z.to_nat off)); [reflexivity|].
  destruct (Nat.ltb_spec k (Z.to_nat off + length data)); [lia|reflexivity].
Qed.

Lemma mem_write_start d data :
  Z.of_nat (length data) <= Z.of_nat (length d) ->
  mem_write d 0 data = Done (overwrite d data).
Proof.
  intros H. unfold mem_write, overwrite.
  destruct (Z.leb_spec (0 + Z.of_nat (length data)) (Z.of_nat (length d)));
    [reflexivity|lia].
Qed.

Lemma mem_read_whole e n :
  Z.of_nat (length e) = n -> mem_read e 0 n = Done e.
Proof.
  intros H. unfold mem_read.
  destruct (Z.leb_spec (0 + n) (Z.of_nat (length e))); [|lia].
  simpl. rewrite firstn_all2 by lia. reflexivity.
Qed.

Lemma zeros_length n : 0 <= n -> Z.of_nat (length (zeros n)) = n.
Proof. intros H. unfold zeros. rewrite repeat_length. lia. Qed.

(** ** Slots *)

Section Slots.

Variable r : ringbuf.
Hypothesis Hs : storage_ok r.

(** No index below the capacity makes the offset wrap around. *)
Lemma slot_offset idx :
  0 <= idx < capacity r ->
  size_mul (elem_sz r) idx = elem_sz r * idx /\
  0 <= elem_sz r * idx /\
  elem_sz r * idx + elem_sz r <= Z.of_nat (length (buf r)).
Proof.
  destruct Hs as ([_ Hc] & [He0 He1] & Hl0 & Hl1). intros Hi.
  assert (H0 : 0 <= elem_sz r * idx) by (apply Z.mul_nonneg_nonneg; lia).
  assert (H1 : elem_sz r * (idx + 1) <= elem_sz r * capacity r)
    by (apply Z.mul_le_mono_nonneg_l; lia).
  split; [apply size_mul_small; lia|]. split; lia.
Qed.

Lemma slot_length idx :
  0 <= idx < capacity r ->
  Z.of_nat (length (slot r idx)) = elem_sz r.
Proof.
  intros Hi. destruct (slot_offset idx Hi) as (_ & H0 & H1).
  destruct Hs as (_ & [He _] & _).
  unfold slot. rewrite length_firstn, length_skipn. lia.
Qed.

Lemma slot_read idx :
  0 <= idx < capacity r ->
  mem_read (buf r) (size_mul (elem_sz r) idx) (elem_sz r)
    = Done (slot r idx).
Proof.
  intros Hi. destruct (slot_offset idx Hi) as (-> & H0 & H1).
  unfold mem_read, slot.
  destruct (Z.leb_spec (elem_sz r * idx + elem_sz r)
                       (Z.of_nat (length (buf r)))); [reflexivity|lia].
Qed.

(** Writing an element into a slot changes that slot and no other. *)
Lemma slot_write (idx : Z) (data : bytes) :
  0 <= idx < capacity r ->
  Z.of_nat (length data) = elem_sz r ->
  exists b,
    mem_write (buf r) (size_mul (elem_sz r) idx) data = Done b /\
    length b = length (buf r) /\
    slot (set_buf b r) idx = data /\
    forall j, 0 <= j < capacity r -> j <> idx ->
              slot (set_buf b r) j = slot r j.
Proof.
  intros Hi Hd. destruct (slot_offset idx Hi) as (-> & H0 & H1).
  destruct (mem_write_fits (buf r) (elem_sz r * idx) data H0) as [b Hb];
    [lia|].
  exists b. split; [exact Hb|].
  destruct (mem_write_nth _ _ _ _ H0 Hb) as [Hlen _].
  split; [exact Hlen|]. split.
  - unfold slot. simpl.
    replace (Z.to_nat (elem_sz r)) with (length data) by lia.
    apply (mem_write_window _ _ _ _ H0 Hb).
  - intros j Hj Hne. unfold slot. simpl.
    apply (mem_write_other _ _ _ _ _ _ H0 Hb).
    destruct Hs as (_ & [He0 _] & _).
    assert (Hcmp : j + 1 <= idx \/ idx + 1 <= j) by lia.
    destruct Hcmp as [Hlt|Hgt].
    + left.
      assert (elem_sz r * (j + 1) <= elem_sz r * idx)
        by (apply Z.mul_le_mono_nonneg_l; lia).
      assert (0 <= elem_sz r * j) by (apply Z.mul_nonneg_nonneg; lia).
      lia.
    + right.
      assert (elem_sz r * (idx + 1) <= elem_sz r * j)
        by (apply Z.mul_le_mono_nonneg_l; lia).
      lia.
Qed.

End Slots.

(** ** Removal *)

Lemma slot_fetch_opt_ok r d :
  storage_ok r -> 0 <= head r < capacity r -> dst_fits r d ->
  slot_fetch_opt r d = Done (copied r d).
Proof.
  intros Hs Hh Hd. destruct d as [dst|]; [|reflexivity].
  unfold slot_fetch_opt, slot_fetch, copied.
  rewrite (slot_read r Hs (head r) Hh).
  change (match elem_copy r with
          | Some f => f dst (slot r (head r))
          | None => slot r (head r)
          end) with (element_out r dst).
  rewrite mem_write_start; [reflexivity|].
  simpl in Hd. lia.
Qed.

Lemma covers_after_remove r b :
  storage_ok r -> 0 < capacity r -> length b = length (buf r) ->
  covers (after_remove r b).
Proof.
  intros (_ & [He _] & Hl & _) Hc Hb. unfold covers. simpl.
  rewrite Hb. repeat split; lia.
Qed.

Lemma covers_after_add r b :
  storage_ok r -> 0 < capacity r -> length b = length (buf r) ->
  covers (after_add r b).
Proof.
  intros (_ & [He _] & Hl & _) Hc Hb. unfold covers. simpl.
  rewrite Hb. repeat split; lia.
Qed.

Lemma remove_head_run (s : machine) (d : option bytes) :
  storage_ok (rb s) -> 0 <= head (rb s) < capacity (rb s) ->
  count (rb s) <> 0 -> dst_fits (rb s) d ->
  exists b out,
    mem_write (buf (rb s)) (elem_sz (rb s) * head (rb s))
              (zeros (elem_sz (rb s))) = Done b /\
    length b = length (buf (rb s)) /\
    slot (set_buf b (rb s)) (head (rb s)) = zeros (elem_sz (rb s)) /\
    (forall j, 0 <= j < capacity (rb s) -> j <> head (rb s) ->
               slot (set_buf b (rb s)) j = slot (rb s) j) /\
    (elem_print (rb s) = None -> out = stdout s) /\
    ringbuf_remove_head d s =
      Done ((RB_OK, copied (rb s) d), mk_machine (after_remove (rb s) b) out).
Proof.
  intros Hs Hh Hc Hd.
  assert (He : 0 <= elem_sz (rb s)) by (destruct Hs as (_ & [? _] & _); lia).
  destruct (slot_write (rb s) Hs (head (rb s)) (zeros (elem_sz (rb s))) Hh
              (zeros_length _ He)) as (b & Hb & Hlen & Hz & Ho).
  destruct (remove_head_eq d s) as (out & Hq & ->).
  destruct (Z.eqb_spec 0 (count (rb s))) as [E|_]; [congruence|].
  rewrite (slot_fetch_opt_ok _ _ Hs Hh Hd).
  unfold slot_clear. rewrite Hb.
  destruct (Z.eqb_spec (capacity (rb s)) 0) as [E|_]; [lia|].
  assert (Hcov : covers (after_remove (rb s) b))
    by (apply covers_after_remove; [exact Hs | lia | exact Hlen]).
  destruct (slot_offset _ Hs _ Hh) as (Hoff & _).
  rewrite Hoff in Hb.
  destruct (elem_print (rb s)) as [p|] eqn:Ep.
  - destruct (debug_remove_head_ok
                (mk_machine (after_remove (rb s) b) out) Hcov) as [out' ->].
    exists b, out'. repeat split; try assumption. discriminate.
  - rewrite debug_remove_head_quiet by exact Ep.
    exists b, out. repeat split; try assumption.
Qed.

(** C9: on a non-empty buffer [ringbuf_remove_head] returns 0; a present
    destination receives the bytes of the slot at [head] (what the
    installed copy callback makes of them, else the bytes themselves); the
    slot's [elem_sz] bytes are zeroed and no other byte of the storage
    changes; head becomes (head + 1) mod capacity and count drops by 1. *)
Theorem remove_head_success (s : machine) (d : option bytes) :
  storage_ok (rb s) ->
  0 <= head (rb s) < capacity (rb s) ->
  0 < count (rb s) < SIZE_MOD ->
  dst_fits (rb s) d ->
  exists d' s',
    ringbuf_remove_head d s = Done ((0, d'), s') /\
    d' = copied (rb s) d /\
    (forall dst, d = Some dst -> elem_copy (rb s) = None ->
                 Z.of_nat (length dst) = elem_sz (rb s) ->
                 d' = Some (slot (rb s) (head (rb s)))) /\
    buf (rb s') =
      firstn (Z.to_nat (elem_sz (rb s) * head (rb s))) (buf (rb s))
      ++ zeros (elem_sz (rb s))
      ++ skipn (Z.to_nat (elem_sz (rb s) * head (rb s))
                + Z.to_nat (elem_sz (rb s))) (buf (rb s)) /\
    slot (rb s') (head (rb s)) = zeros (elem_sz (rb s)) /\
    (forall j, 0 <= j < capacity (rb s) -> j <> head (rb s) ->
               slot (rb s') j = slot (rb s) j) /\
    head (rb s') = (head (rb s) + 1) mod capacity (rb s) /\
    count (rb s') = count (rb s) - 1 /\
    tail (rb s') = tail (rb s) /\
    capacity (rb s') = capacity (rb s) /\
    elem_sz (rb s') = elem_sz (rb s) /\
    elem_copy (rb s') = elem_copy (rb s) /\
    elem_print (rb s') = elem_print (rb s).
Proof.
  intros Hs Hh Hc Hd.
  assert (Hne : count (rb s) <> 0) by lia.
  destruct (remove_head_run s d Hs Hh Hne Hd)
    as (b & out & Hb & Hlen & Hz & Ho & _ & Hrun).
  exists (copied (rb s) d), (mk_machine (after_remove (rb s) b) out).
  split; [exact Hrun|]. split; [reflexivity|].
  assert (He : 0 <= elem_sz (rb s)) by (destruct Hs as (_ & [? _] & _); lia).
  assert (Hcap : capacity (rb s) < SIZE_MOD) by (destruct Hs as ([_ ?] & _); lia).
  split.
  { intros dst -> Hcp Hl. unfold copied, element_out. rewrite Hcp.
    f_equal. unfold overwrite.
    pose proof (slot_length _ Hs _ Hh) as Hsl.
    rewrite skipn_all2 by lia. apply app_nil_r. }
  split.
  { simpl. revert Hb. unfold mem_write.
    destruct (_ <=? _); [|discriminate].
    intros H. inversion H.
    unfold zeros at 2. rewrite repeat_length. reflexivity. }
  simpl.
  rewrite (size_add_small (head (rb s)) 1) by lia.
  rewrite (size_sub_small (count (rb s)) 1) by lia.
  split; [exact Hz|]. split; [exact Ho|]. repeat split.
Qed.

Lemma remove_head_success_witness :
  let s := boot (mk_ringbuf [x01; x02] 2 1 1 1 2 None None) in
  exists s',
    ringbuf_remove_head (Some [x09]) s = Done ((0, Some [x02]), s') /\
    buf (rb s') = [x01; x00] /\ head (rb s') = 0 /\ count (rb s') = 1.
Proof.
  intros s.
  destruct (remove_head_success s (Some [x09]))
    as (d' & s' & Hrun & Hd & _ & Hb & _ & _ & Hh & Hc & _).
  - size_solve.
  - simpl. lia.
  - size_solve.
  - simpl. lia.
  - subst d'. exists s'. split; [exact Hrun|].
    split; [exact Hb|]. split; [exact Hh|exact Hc].
Defined.

(** ** First in, first out *)

Lemma mod_window_neq a i j c :
  0 < c -> 0 <= i < j -> j - i < c -> (a + i) mod c <> (a + j) mod c.
Proof.
  intros Hc Hij Hd E.
  assert (H : ((a + j) - (a + i)) mod c = 0).
  { rewrite Zminus_mod, E, Z.sub_diag. apply Z.mod_0_l. lia. }
  replace (a + j - (a + i)) with (j - i) in H by lia.
  rewrite Z.mod_small in H by lia. lia.
Qed.

Lemma contents_after_add r b e :
  0 < capacity r -> ringbuf_inv r -> is_size (capacity r) ->
  count r <> capacity r ->
  slot (set_buf b r) (tail r) = e ->
  (forall j, 0 <= j < capacity r -> j <> tail r ->
             slot (set_buf b r) j = slot r j) ->
  contents (after_add r b) = contents r ++ [e].
Proof.
  intros Hc (Hk & [Hh Ht] & Htl) [_ Hcap] Hf He Ho.
  unfold count_ok, tail_ok in *.
  unfold contents. simpl.
  rewrite (size_add_small (count r) 1) by lia.
  replace (Z.to_nat (count r + 1)) with (S (Z.to_nat (count r))) by lia.
  rewrite seq_S, map_app. simpl. f_equal.
  - apply map_ext_in. intros i Hi. apply in_seq in Hi.
    change (slot (after_add r b)) with (slot (set_buf b r)).
    apply Ho; [apply Z.mod_pos_bound; lia|].
    rewrite Htl. apply mod_window_neq; lia.
  - change (slot (after_add r b)) with (slot (set_buf b r)).
    rewrite Z2Nat.id by lia. rewrite <- Htl, He. reflexivity.
Qed.

Lemma contents_after_remove r b :
  0 < capacity r -> ringbuf_inv r -> is_size (capacity r) ->
  count r <> 0 ->
  (forall j, 0 <= j < capacity r -> j <> head r ->
             slot (set_buf b r) j = slot r j) ->
  contents r = slot r (head r) :: contents (after_remove r b).
Proof.
  intros Hc (Hk & [Hh Ht] & Htl) [_ Hcap] He Ho.
  unfold count_ok in *.
  unfold contents. simpl.
  rewrite (size_add_small (head r) 1) by lia.
  rewrite (size_sub_small (count r) 1) by lia.
  replace (Z.to_nat (count r)) with (S (Z.to_nat (count r - 1))) by lia.
  simpl. f_equal.
  - rewrite Z.add_0_r. rewrite Z.mod_small by lia. reflexivity.
  - rewrite <- seq_shift, map_map.
    apply map_ext_in. intros i Hi. apply in_seq in Hi.
    change (slot (after_remove r b)) with (slot (set_buf b r)).
    rewrite Z.add_mod_idemp_l by lia.
    replace (head r + 1 + Z.of_nat i) with (head r + Z.of_nat (S i)) by lia.
    symmetry. apply Ho; [apply Z.mod_pos_bound; lia|].
    intros E. apply (mod_window_neq (head r) 0 (Z.of_nat (S i)) (capacity r));
      try lia.
    rewrite Z.add_0_r, (Z.mod_small (head r)) by lia. symmetry. exact E.
Qed.


Lemma add_tail_run (s : machine) (e : bytes) :
  fifo_ready (rb s) -> Z.of_nat (length e) = elem_sz (rb s) ->
  count (rb s) <> capacity (rb s) ->
  exists s',
    ringbuf_add_tail (Some e) s = Done (RB_OK, s') /\
    fifo_ready (rb s') /\ elem_sz (rb s') = elem_sz (rb s) /\
    contents (rb s') = contents (rb s) ++ [e].
Proof.
  intros (Hs & Hk & Hi & Hcp) He Hf.
  assert (Hc : 0 < capacity (rb s)) by (unfold count_ok in Hk; lia).
  destruct (Hi Hc) as [Hix Htl].
  assert (Hinv : ringbuf_inv (rb s)) by (repeat split; solve [apply Hk | apply Hix | exact Htl]).
  destruct Hix as [Hh Ht].
  destruct (slot_write (rb s) Hs (tail (rb s)) e Ht He)
    as (b & Hb & Hlen & Hw & Ho).
  rewrite add_tail_eq.
  destruct (Z.eqb_spec (count (rb s)) (capacity (rb s))) as [E|_]; [contradiction|].
  unfold slot_store. rewrite Hcp, (mem_read_whole e _ He), Hb.
  destruct (Z.eqb_spec (capacity (rb s)) 0) as [E|_]; [lia|].
  assert (Hcov : covers (after_add (rb s) b))
    by (apply covers_after_add; assumption).
  destruct (debug_add_tail_ok e (mk_machine (after_add (rb s) b) (stdout s)) Hcov)
    as [out ->].
  eexists. split; [reflexivity|]. simpl.
  assert (Hsz : is_size (capacity (rb s))) by (destruct Hs as (? & _); assumption).
  pose proof (inv_after_add (rb s) b Hsz Hinv Hf) as (Hk' & Hix' & Htl').
  split; [|split; [reflexivity|]].
  - split; [|split; [exact Hk'|split; [intros _; split; assumption|exact Hcp]]].
    destruct Hs as (H1 & H2 & H3). unfold storage_ok. simpl. rewrite Hlen.
    repeat split; solve [apply H1 | apply H2 | apply H3].
  - apply contents_after_add; assumption.
Qed.

Lemma remove_head_fifo (s : machine) (d : option bytes) :
  fifo_ready (rb s) ->
  match d with Some dst => Z.of_nat (length dst) = elem_sz (rb s) | None => True end ->
  count (rb s) <> 0 ->
  exists x s',
    ringbuf_remove_head d s
      = Done ((RB_OK, match d with Some _ => Some x | None => None end), s') /\
    fifo_ready (rb s') /\ elem_sz (rb s') = elem_sz (rb s) /\
    contents (rb s) = x :: contents (rb s').
Proof.
  intros (Hs & Hk & Hi & Hcp) Hd He.
  assert (Hc : 0 < capacity (rb s)) by (unfold count_ok in Hk; lia).
  destruct (Hi Hc) as [Hix Htl].
  assert (Hinv : ringbuf_inv (rb s)) by (repeat split; solve [apply Hk | apply Hix | exact Htl]).
  destruct Hix as [Hh Ht].
  pose proof (slot_length _ Hs _ Hh) as Hsl.
  assert (Hfit : dst_fits (rb s) d).
  { destruct d as [dst|]; [|exact I]. unfold dst_fits, element_out.
    rewrite Hcp. lia. }
  destruct (remove_head_run s d Hs Hh He Hfit)
    as (b & out & Hb & Hlen & Hz & Ho & _ & Hrun).
  exists (slot (rb s) (head (rb s))), (mk_machine (after_remove (rb s) b) out).
  assert (Hsz : is_size (capacity (rb s))) by (destruct Hs as (? & _); assumption).
  split; [|split; [|split; [reflexivity|]]].
  - rewrite Hrun. do 3 f_equal. destruct d as [dst|]; [|reflexivity].
    unfold copied, element_out, overwrite. rewrite Hcp. f_equal.
    rewrite skipn_all2 by lia. apply app_nil_r.
  - simpl. pose proof (inv_after_remove (rb s) b Hsz Hinv He) as (Hk' & Hix' & Htl').
    split; [|split; [exact Hk'|split; [intros _; split; assumption|exact Hcp]]].
    destruct Hs as (H1 & H2 & H3). unfold storage_ok. simpl. rewrite Hlen.
    repeat split; solve [apply H1 | apply H2 | apply H3].
  - simpl. apply contents_after_remove; assumption.
Qed.

Lemma run_cons c cs s :
  run (c :: cs) s =
  match exec c s with
  | Fault f => Fault f
  | Done (x, s1) =>
      match run cs s1 with
      | Fault f => Fault f
      | Done (xs, s2) => Done (x :: xs, s2)
      end
  end.
Proof.
  simpl. unfold bind at 1. destruct (exec c s) as [f|[x s1]]; [reflexivity|].
  unfold bind, ret. destruct (run cs s1) as [f|[xs s2]]; reflexivity.
Qed.

Lemma exec_add e s :
  exec (AddTail e) s =
  match ringbuf_add_tail e s with
  | Fault f => Fault f
  | Done (rc, s') => Done (Added rc, s')
  end.
Proof.
  unfold exec, bind, ret. destruct (ringbuf_add_tail e s) as [f|[rc s']]; reflexivity.
Qed.

Lemma exec_remove d s :
  exec (RemoveHead d) s =
  match ringbuf_remove_head d s with
  | Fault f => Fault f
  | Done ((rc, d'), s') => Done (Removed rc d', s')
  end.
Proof.
  unfold exec, bind, ret.
  destruct (ringbuf_remove_head d s) as [f|[[rc d'] s']]; reflexivity.
Qed.

Lemma run_fifo n cs : forall s,
  fifo_ready (rb s) -> elem_sz (rb s) = n -> Forall (sized n) cs ->
  exists rs s',
    run cs s = Done (rs, s') /\
    length rs = length cs /\
    in_order (delivered rs) (contents (rb s) ++ accepted cs rs) /\
    contents (rb s') =
      skipn (length (delivered rs)) (contents (rb s) ++ accepted cs rs).
Proof.
  induction cs as [|c cs IH]; intros s Hr Hn Hall.
  - exists [], s. simpl. rewrite app_nil_r. repeat split.
  - inversion Hall as [|c0 cs0 Hc Hcs]. subst c0 cs0.
    rewrite run_cons. destruct c as [[e|]|d].
    + (* a present element *)
      rewrite exec_add.
      destruct (Z.eq_dec (count (rb s)) (capacity (rb s))) as [Hf|Hf].
      * rewrite (add_tail_when_full s e Hf).
        destruct (IH s Hr Hn Hcs) as (rs & s' & -> & Hl & Ho & Hq).
        exists (Added RB_ERR :: rs), s'. simpl.
        repeat split; [congruence|exact Ho|exact Hq].
      * simpl in Hc. rewrite <- Hn in Hc.
        destruct (add_tail_run s e Hr Hc Hf) as (s1 & Ha & Hr1 & Hn1 & Hc1).
        rewrite Ha. rewrite Hn in Hn1.
        destruct (IH s1 Hr1 Hn1 Hcs) as (rs & s' & -> & Hl & Ho & Hq).
        exists (Added RB_OK :: rs), s'. simpl.
        rewrite Hc1, <- app_assoc in Ho, Hq. simpl in Ho, Hq.
        repeat split; [congruence|exact Ho|exact Hq].
    + (* a null element *)
      rewrite exec_add. simpl. unfold ret.
      destruct (IH s Hr Hn Hcs) as (rs & s' & -> & Hl & Ho & Hq).
      exists (Added 0 :: rs), s'. simpl.
      repeat split; [congruence|exact Ho|exact Hq].
    + rewrite exec_remove.
      destruct (Z.eq_dec (count (rb s)) 0) as [He|He].
      * rewrite (remove_head_when_empty s d He).
        destruct (IH s Hr Hn Hcs) as (rs & s' & -> & Hl & Ho & Hq).
        exists (Removed RB_ERR d :: rs), s'. simpl.
        repeat split; [congruence|exact Ho|exact Hq].
      * assert (Hd : match d with
                     | Some dst => Z.of_nat (length dst) = elem_sz (rb s)
                     | None => True
                     end)
          by (destruct d; [simpl in Hc; congruence|exact I]).
        destruct (remove_head_fifo s d Hr Hd He) as (x & s1 & Ha & Hr1 & Hn1 & Hc1).
        rewrite Ha. rewrite Hn in Hn1.
        destruct (IH s1 Hr1 Hn1 Hcs) as (rs & s' & -> & Hl & Ho & Hq).
        exists (Removed RB_OK (match d with Some _ => Some x | None => None end)
                  :: rs), s'.
        simpl. rewrite Hc1. simpl.
        repeat split; [congruence| |exact Ho|exact Hq].
        destruct d; [right|left]; reflexivity.
Qed.

(** C2: after a successful [ringbuf_init] on a storage that holds
    [n_elem] elements, any sequence of [ringbuf_add_tail] and
    [ringbuf_remove_head] calls on element-sized objects runs to the end,
    and the k-th successful removal hands out the k-th accepted element:
    the elements come out in the order they went in, across any
    wrap-around of head and tail; what is left in the buffer are the
    accepted elements not yet removed, in order. *)
Theorem fifo_order (r0 : ringbuf) (storage : bytes) (n_elem elem_size : Z)
        (cs : list call) :
  is_size n_elem -> is_size elem_size ->
  n_elem * elem_size <= Z.of_nat (length storage) < SIZE_MOD ->
  Forall (sized elem_size) cs ->
  exists r rs s',
    ringbuf_init (Some r0) (Some storage) n_elem elem_size = (RB_OK, Some r) /\
    run cs (boot r) = Done (rs, s') /\
    length rs = length cs /\
    in_order (delivered rs) (accepted cs rs) /\
    contents (rb s') = skipn (length (delivered rs)) (accepted cs rs).
Proof.
  intros Hn He Hl Hall.
  set (r := mk_ringbuf storage n_elem elem_size 0 0 0 None None).
  assert (Hr : fifo_ready (rb (boot r))).
  { unfold fifo_ready, storage_ok, count_ok, index_ok, tail_ok. simpl.
    unfold is_size in *. repeat split; lia. }
  destruct (run_fifo elem_size cs (boot r) Hr eq_refl Hall)
    as (rs & s' & Hrun & Hlen & Ho & Hq).
  exists r, rs, s'. split; [reflexivity|]. split; [exact Hrun|].
  split; [exact Hlen|]. split; [exact Ho|exact Hq].
Qed.

Lemma fifo_order_witness :
  let cs := [AddTail (Some [x41]); AddTail (Some [x42]);
             RemoveHead (Some [x00]); AddTail (Some [x43]);
             RemoveHead (Some [x00]); RemoveHead (Some [x00])] in
  exists r rs s',
    ringbuf_init (Some (mk_ringbuf [] 0 0 0 0 0 None None))
                 (Some [xff; xff]) 2 1 = (RB_OK, Some r) /\
    run cs (boot r) = Done (rs, s') /\
    accepted cs rs = [[x41]; [x42]; [x43]] /\
    delivered rs = [Some [x41]; Some [x42]; Some [x43]] /\
    in_order (delivered rs) (accepted cs rs).
Proof.
  intros cs.
  destruct (fifo_order (mk_ringbuf [] 0 0 0 0 0 None None) [xff; xff] 2 1 cs)
    as (r & rs & s' & Hi & Hrun & _ & Ho & _).
  - size_solve.
  - size_solve.
  - size_solve.
  - repeat constructor.
  - exists r, rs, s'. split; [exact Hi|]. split; [exact Hrun|].
    inversion Hi. subst r. vm_compute in Hrun. inversion Hrun. subst rs s'.
    split; [reflexivity|]. split; [reflexivity|]. exact Ho.
Defined.

(** ** The end-to-end scenario *)

(** C8: capacity 8, elements of 4 bytes.  Adding 1..8 returns 0 each time;
    adding 9 returns -1; a removal returns 0 and yields 1; adding 90
    returns 0 and lands in the slot that held 1; head to tail the buffer
    then holds 2,3,4,5,6,7,8,90; eight removals yield exactly these; the
    ninth returns -1. *)
Theorem scenario_capacity_8 (r0 : ringbuf) (storage d : bytes) :
  length storage = 32%nat -> length d = 4%nat ->
  exists r s1 s2 s3 s4,
    ringbuf_init (Some r0) (Some storage) 8 4 = (RB_OK, Some r) /\
    run (map (fun v => AddTail (Some (le32 v))) [1; 2; 3; 4; 5; 6; 7; 8])
        (boot r)
      = Done (repeat (Added 0) 8, s1) /\
    slot (rb s1) 0 = le32 1 /\ tail (rb s1) = 0 /\
    run [AddTail (Some (le32 9)); RemoveHead (Some d)] s1
      = Done ([Added (-1); Removed 0 (Some (le32 1))], s2) /\
    run [AddTail (Some (le32 90))] s2 = Done ([Added 0], s3) /\
    slot (rb s3) 0 = le32 90 /\
    contents (rb s3) = map le32 [2; 3; 4; 5; 6; 7; 8; 90] /\
    run (repeat (RemoveHead (Some d)) 9) s3
      = Done (map (fun v => Removed 0 (Some (le32 v)))
                  [2; 3; 4; 5; 6; 7; 8; 90]
              ++ [Removed (-1) (Some d)], s4) /\
    count (rb s4) = 0.
Proof.
  intros Hs Hd.
  do 32 (destruct storage as [|? storage]; [discriminate Hs|]).
  destruct storage; [|discriminate Hs].
  do 4 (destruct d as [|? d]; [discriminate Hd|]).
  destruct d; [|discriminate Hd].
  clear Hs Hd.
  eexists. eexists. eexists. eexists. eexists.
  split; [reflexivity|].
  split; [vm_compute; reflexivity|].
  split; [reflexivity|]. split; [reflexivity|].
  split; [vm_compute; reflexivity|].
  split; [vm_compute; reflexivity|].
  split; [reflexivity|]. split; [reflexivity|].
  split; [vm_compute; reflexivity|].
  reflexivity.
Qed.

Lemma scenario_capacity_8_witness :
  exists s3,
    contents (rb s3) = map le32 [2; 3; 4; 5; 6; 7; 8; 90] /\
    exists s4,
      run (repeat (RemoveHead (Some (le32 0))) 9) s3
        = Done (map (fun v => Removed 0 (Some (le32 v)))
                    [2; 3; 4; 5; 6; 7; 8; 90]
                ++ [Removed (-1) (Some (le32 0))], s4).
Proof.
  destruct (scenario_capacity_8 (mk_ringbuf [] 0 0 0 0 0 None None)
              (repeat xff 32) (le32 0))
    as (r & s1 & s2 & s3 & s4 & _ & _ & _ & _ & _ & _ & _ & Hc & Hr & _).
  - reflexivity.
  - reflexivity.
  - exists s3. split; [exact Hc|]. exists s4. exact Hr.
Defined.

(** ** The callbacks at work *)

(** With [elem_print_char] installed, an insertion prints the element and
    then the buffer from head to tail. *)
Example add_tail_prints :
  let r := mk_ringbuf [x61; x00; x00] 3 1 0 1 1 None (Some elem_print_char) in
  ringbuf_add_tail (Some [x62]) (boot r)
  = Done (0, mk_machine
               (mk_ringbuf [x61; x62; x00] 3 1 0 2 2 None (Some elem_print_char))
               (String.append "ringbuf_add_tail: added elem: b"
                  (String.append newline (String.append "a b " newline)))).
Proof. reflexivity. Qed.

(** A removal that empties the buffer prints the removed element and
    "(empty)". *)
Example remove_head_prints :
  let r := mk_ringbuf [x61; x00; x00] 3 1 0 1 1 None (Some elem_print_char) in
  ringbuf_remove_head (Some [xff]) (boot r)
  = Done ((0, Some [x61]),
          mk_machine
            (mk_ringbuf [x00; x00; x00] 3 1 1 1 0 None (Some elem_print_char))
            (String.append "ringbuf_remove_head: removed elem: a"
               (String.append newline (String.append "(empty)" newline)))).
Proof. reflexivity. Qed.

(** An installed copy callback decides what reaches the slot and the
    destination: this one copies the first byte only. *)
Example copy_callback_used :
  let f : copy_fn := fun dst src => firstn 1 src ++ skipn 1 dst in
  let r := mk_ringbuf [xff; xff; xff; xff] 2 2 0 0 0 (Some f) None in
  exists s1,
    ringbuf_add_tail (Some [x01; x02]) (boot r) = Done (0, s1) /\
    buf (rb s1) = [x01; xff; xff; xff] /\
    exists s2,
      ringbuf_remove_head (Some [x00; x00]) s1
        = Done ((0, Some [x01; x00]), s2) /\
      buf (rb s2) = [x00; x00; xff; xff].
Proof.
  intros f r. subst f r.
  eexists. split; [vm_compute; reflexivity|]. split; [reflexivity|].
  eexists. split; [vm_compute; reflexivity|reflexivity].
Qed.

(** A storage too small for the slots is an access out of bounds. *)
Example add_tail_out_of_bounds :
  ringbuf_add_tail (Some [x01; x02])
    (boot (mk_ringbuf [x00; x00; x00] 2 2 0 1 1 None None))
  = Fault OutOfBounds.
Proof. reflexivity. Qed.

(* ================================================================= *)
(** * Further properties of the operations *)

(** ** Return values *)

(** X1: whatever the state and the callbacks, a call of
    [ringbuf_add_tail] that returns gives 0 or -1, and -1 exactly when the
    element is non-null and the buffer full; [ringbuf_remove_head] gives 0
    or -1, and -1 exactly when the buffer is empty.  A call that returned -1
    changed nothing. *)
Theorem return_codes (s : machine) :
  (forall e rc s',
     ringbuf_add_tail e s = Done (rc, s') ->
     (rc = 0 \/ rc = -1) /\
     (rc = -1 <-> e <> None /\ count (rb s) = capacity (rb s)) /\
     (rc = -1 -> s' = s)) /\
  (forall d rc d' s',
     ringbuf_remove_head d s = Done ((rc, d'), s') ->
     (rc = 0 \/ rc = -1) /\
     (rc = -1 <-> count (rb s) = 0) /\
     (rc = -1 -> s' = s /\ d' = d)).
Proof.
  split.
  - intros e rc s' H. apply add_tail_cases in H.
    destruct H as [[-> [[-> ->] | (Hn & -> & Hf)]]
                  | (-> & Hf & _ & x & b & -> & _ & _)];
      unfold RB_OK, RB_ERR.
    + split; [left; reflexivity|]. split; [|discriminate].
      split; [discriminate|]. intros [Hn _]. contradiction.
    + split; [right; reflexivity|]. split; [|reflexivity].
      split; [intros _; split; assumption|reflexivity].
    + split; [left; reflexivity|]. split; [|discriminate].
      split; [discriminate|]. intros [_ Hc]. contradiction.
  - intros d rc d' s' H. apply remove_head_cases in H.
    destruct H as [(-> & -> & -> & He) | (-> & He & _)];
      unfold RB_OK, RB_ERR.
    + split; [right; reflexivity|]. split; [|split; reflexivity].
      split; [intros _; exact He|reflexivity].
    + split; [left; reflexivity|]. split; [|discriminate].
      split; [discriminate|]. intros Hc. contradiction.
Qed.

Lemma return_codes_witness :
  let s := boot (mk_ringbuf [x01; x02] 2 1 0 0 2 None None) in
  exists rc s',
    ringbuf_add_tail (Some [x03]) s = Done (rc, s') /\ rc = -1 /\ s' = s.
Proof.
  intros s. exists (-1), s.
  assert (H : ringbuf_add_tail (Some [x03]) s = Done (-1, s)) by reflexivity.
  split; [exact H|].
  destruct (return_codes s) as [Ha _].
  destruct (Ha (Some [x03]) (-1) s H) as (_ & _ & Hs).
  split; [reflexivity|]. apply Hs. reflexivity.
Defined.

(** ** What the operations never touch *)

Lemma size_mul_nonneg a b : 0 <= size_mul a b.
Proof. unfold size_mul. apply Z.mod_pos_bound. exact SIZE_MOD_pos. Qed.

Lemma slot_store_length r e b :
  slot_store r e = Done b -> length b = length (buf r).
Proof.
  unfold slot_store.
  destruct (elem_copy r) as [f|];
    (destruct (mem_read _ _ _) as [x|d]; [discriminate|]);
    intros H;
    apply (mem_write_nth _ _ _ _ (size_mul_nonneg _ _)) in H;
    apply H.
Qed.

Lemma slot_clear_length r b :
  slot_clear r = Done b -> length b = length (buf r).
Proof.
  unfold slot_clear. intros H.
  apply (mem_write_nth _ _ _ _ (size_mul_nonneg _ _)) in H. apply H.
Qed.

(** X2: a call that returns never changes the capacity, the element size,
    the callbacks or the size of the storage; [ringbuf_add_tail] never
    moves head and [ringbuf_remove_head] never moves tail. *)
Theorem operations_frame (s : machine) :
  (forall e rc s',
     ringbuf_add_tail e s = Done (rc, s') ->
     capacity (rb s') = capacity (rb s) /\ elem_sz (rb s') = elem_sz (rb s) /\
     elem_copy (rb s') = elem_copy (rb s) /\
     elem_print (rb s') = elem_print (rb s) /\
     length (buf (rb s')) = length (buf (rb s)) /\
     head (rb s') = head (rb s)) /\
  (forall d res s',
     ringbuf_remove_head d s = Done (res, s') ->
     capacity (rb s') = capacity (rb s) /\ elem_sz (rb s') = elem_sz (rb s) /\
     elem_copy (rb s') = elem_copy (rb s) /\
     elem_print (rb s') = elem_print (rb s) /\
     length (buf (rb s')) = length (buf (rb s)) /\
     tail (rb s') = tail (rb s)).
Proof.
  split.
  - intros e rc s' H. apply add_tail_cases in H.
    destruct H as [[-> _] | (_ & _ & _ & x & b & _ & Hb & ->)].
    + repeat split.
    + simpl. apply slot_store_length in Hb. repeat split. exact Hb.
  - intros d [rc d'] s' H. apply remove_head_cases in H.
    destruct H as [(-> & _) | (_ & _ & _ & _ & b & Hb & ->)].
    + repeat split.
    + simpl. apply slot_clear_length in Hb. repeat split. exact Hb.
Qed.

Lemma operations_frame_witness :
  let s := boot (mk_ringbuf [x01; x02] 2 1 1 1 2 None None) in
  exists s', ringbuf_remove_head (Some [x09]) s = Done ((0, Some [x02]), s') /\
             tail (rb s') = 1 /\ capacity (rb s') = 2 /\
             length (buf (rb s')) = 2%nat.
Proof.
  intros s.
  assert (H : exists s', ringbuf_remove_head (Some [x09]) s
                         = Done ((0, Some [x02]), s'))
    by (eexists; vm_compute; reflexivity).
  destruct H as [s' H]. exists s'. split; [exact H|].
  destruct (operations_frame s) as [_ Hr].
  destruct (Hr _ _ _ H) as (Hc & _ & _ & _ & Hl & Ht).
  split; [exact Ht|]. split; [exact Hc|exact Hl].
Defined.

(** ** Full, empty and the indices *)

(** X3: in a state reachable from [ringbuf_init] with a positive
    capacity, head equals tail exactly when the buffer is empty or full:
    the indices alone do not tell the two apart, count does. *)
Theorem head_meets_tail (n_elem elem_size : Z) (s : machine) :
  0 < n_elem ->
  reachable n_elem elem_size s ->
  (head (rb s) = tail (rb s) <->
   count (rb s) = 0 \/ count (rb s) = capacity (rb s)).
Proof.
  intros Hn H.
  destruct (reachable_facts _ _ _ H) as (_ & Hc & _ & Hi & _).
  destruct (Hi Hn) as (Hk & [Hh Ht] & Htl).
  unfold count_ok, tail_ok in *. rewrite Hc in *.
  split.
  - intros E.
    destruct (Z.eq_dec (count (rb s)) 0) as [E0|E0]; [left; exact E0|].
    destruct (Z.eq_dec (count (rb s)) n_elem) as [E1|E1]; [right; exact E1|].
    exfalso.
    apply (mod_window_neq (head (rb s)) 0 (count (rb s)) n_elem); try lia.
    rewrite Z.add_0_r, (Z.mod_small (head (rb s))) by lia.
    rewrite <- Htl. exact E.
  - intros [E|E]; rewrite Htl, E.
    + rewrite Z.add_0_r, Z.mod_small by lia. reflexivity.
    + rewrite <- (Z.mul_1_l n_elem) at 1.
      rewrite Z.mod_add by lia. rewrite Z.mod_small by lia. reflexivity.
Qed.

Lemma head_meets_tail_witness :
  let r := mk_ringbuf [x00; x00] 2 1 0 0 0 None None in
  head (rb (boot r)) = tail (rb (boot r)) <->
  count (rb (boot r)) = 0 \/ count (rb (boot r)) = capacity (rb (boot r)).
Proof.
  intros r. apply (head_meets_tail 2 1 (boot r)).
  - lia.
  - apply (reach_init 2 1 (Some r) (Some [x00; x00]) r EmptyString);
      [split; [lia|reflexivity] | split; [lia|reflexivity] | reflexivity].
Defined.

(** X4: a buffer initialised with capacity 0 is both full and empty in
    every state it reaches; one initialised with a positive capacity starts
    empty and not full. *)
Theorem full_and_empty_at_once (n_elem elem_size : Z) (s : machine) :
  reachable n_elem elem_size s ->
  (n_elem = 0 ->
   ringbuf_full s = Done (1, s) /\ ringbuf_empty s = Done (1, s)) /\
  (0 < n_elem -> forall r0 storage r,
     ringbuf_init (Some r0) (Some storage) n_elem elem_size = (RB_OK, Some r) ->
     ringbuf_full (boot r) = Done (0, boot r) /\
     ringbuf_empty (boot r) = Done (1, boot r)).
Proof.
  intros H. split.
  - intros Hz. destruct (reachable_facts _ _ _ H) as (_ & Hc & _ & _ & Hk).
    specialize (Hk Hz).
    unfold ringbuf_full, ringbuf_empty. unfold_monad.
    rewrite Hk, Hc, Hz. split; reflexivity.
  - intros Hn r0 storage r Hi. inversion Hi. subst r.
    unfold ringbuf_full, ringbuf_empty. unfold_monad. simpl.
    destruct n_elem; try lia. split; reflexivity.
Qed.

Lemma full_and_empty_at_once_witness :
  let r := mk_ringbuf [x00; x00; x00; x00] 0 4 0 0 0 None None in
  ringbuf_full (boot r) = Done (1, boot r) /\
  ringbuf_empty (boot r) = Done (1, boot r).
Proof.
  intros r. apply (full_and_empty_at_once 0 4 (boot r)); [|reflexivity].
  apply (reach_init 0 4 (Some r) (Some [x00; x00; x00; x00]) r EmptyString);
    [split; [lia|reflexivity] | split; [lia|reflexivity] | reflexivity].
Defined.

(** ** Insertion *)

Lemma slot_store_ok (r : ringbuf) (e : bytes) :
  storage_ok r -> 0 <= tail r < capacity r -> src_fits r e ->
  slot_store r e
  = mem_write (buf r) (elem_sz r * tail r) (element_in r e).
Proof.
  intros Hs Ht Hf. unfold slot_store, element_in.
  destruct (slot_offset r Hs (tail r) Ht) as (-> & H0 & H1).
  unfold src_fits in Hf. destruct (elem_copy r) as [f|].
  - pose proof (slot_read r Hs (tail r) Ht) as Hr.
    destruct (slot_offset r Hs (tail r) Ht) as (Ho & _). rewrite Ho in Hr.
    rewrite Hr. reflexivity.
  - unfold mem_read.
    destruct (Z.leb_spec (0 + elem_sz r) (Z.of_nat (length e))); [|lia].
    reflexivity.
Qed.

Lemma element_in_fits (r : ringbuf) (e : bytes) :
  storage_ok r -> 0 <= tail r < capacity r -> src_fits r e ->
  elem_sz r * tail r + Z.of_nat (length (element_in r e))
  <= Z.of_nat (length (buf r)).
Proof.
  intros Hs Ht Hf. unfold element_in, src_fits in *.
  destruct (elem_copy r) as [f|]; [exact Hf|].
  destruct (slot_offset r Hs (tail r) Ht) as (_ & H0 & H1).
  destruct Hs as (_ & [He _] & _).
  rewrite length_firstn. lia.
Qed.

Lemma add_tail_general (s : machine) (e : bytes) :
  storage_ok (rb s) -> 0 <= tail (rb s) < capacity (rb s) ->
  count (rb s) <> capacity (rb s) -> src_fits (rb s) e ->
  exists b out,
    mem_write (buf (rb s)) (elem_sz (rb s) * tail (rb s))
              (element_in (rb s) e) = Done b /\
    length b = length (buf (rb s)) /\
    (elem_print (rb s) = None -> out = stdout s) /\
    ringbuf_add_tail (Some e) s
    = Done (RB_OK, mk_machine (after_add (rb s) b) out).
Proof.
  intros Hs Ht Hf Hfit.
  destruct (slot_offset _ Hs _ Ht) as (_ & H0 & _).
  destruct (mem_write_fits (buf (rb s)) (elem_sz (rb s) * tail (rb s))
              (element_in (rb s) e) H0 (element_in_fits _ _ Hs Ht Hfit))
    as [b Hb].
  destruct (mem_write_nth _ _ _ _ H0 Hb) as [Hlen _].
  rewrite add_tail_eq.
  destruct (Z.eqb_spec (count (rb s)) (capacity (rb s))) as [E|_];
    [contradiction|].
  rewrite (slot_store_ok _ _ Hs Ht Hfit), Hb.
  destruct (Z.eqb_spec (capacity (rb s)) 0) as [E|_]; [lia|].
  assert (Hcov : covers (after_add (rb s) b))
    by (apply covers_after_add; [exact Hs | lia | exact Hlen]).
  destruct (elem_print (rb s)) as [p|] eqn:Ep.
  - destruct (debug_add_tail_ok e (mk_machine (after_add (rb s) b) (stdout s))
                Hcov) as [out ->].
    exists b, out. repeat split; try assumption. discriminate.
  - rewrite debug_add_tail_quiet by exact Ep.
    exists b, (stdout s). repeat split; assumption.
Qed.

(** X5: on a buffer that is not full, whose storage holds the slots,
    [ringbuf_add_tail] with a non-null element returns 0; the bytes at the
    slot at [tail] become the element (what the installed copy callback
    makes of it, else its first [elem_sz] bytes) and no other byte of the
    storage changes; tail becomes (tail + 1) mod capacity, count grows by
    1, head stays. *)
Theorem add_tail_success (s : machine) (e : bytes) :
  storage_ok (rb s) ->
  0 <= tail (rb s) < capacity (rb s) ->
  0 <= count (rb s) < capacity (rb s) ->
  src_fits (rb s) e ->
  exists s',
    ringbuf_add_tail (Some e) s = Done (0, s') /\
    buf (rb s') =
      firstn (Z.to_nat (elem_sz (rb s) * tail (rb s))) (buf (rb s))
      ++ element_in (rb s) e
      ++ skipn (Z.to_nat (elem_sz (rb s) * tail (rb s))
                + length (element_in (rb s) e)) (buf (rb s)) /\
    (Z.of_nat (length (element_in (rb s) e)) = elem_sz (rb s) ->
     slot (rb s') (tail (rb s)) = element_in (rb s) e /\
     forall j, 0 <= j < capacity (rb s) -> j <> tail (rb s) ->
               slot (rb s') j = slot (rb s) j) /\
    tail (rb s') = (tail (rb s) + 1) mod capacity (rb s) /\
    count (rb s') = count (rb s) + 1 /\
    head (rb s') = head (rb s).
Proof.
  intros Hs Ht Hc Hfit.
  assert (Hne : count (rb s) <> capacity (rb s)) by lia.
  destruct (add_tail_general s e Hs Ht Hne Hfit)
    as (b & out & Hb & Hlen & _ & Hrun).
  exists (mk_machine (after_add (rb s) b) out).
  split; [exact Hrun|].
  assert (Hcap : capacity (rb s) < SIZE_MOD)
    by (destruct Hs as ([_ ?] & _); assumption).
  simpl.
  rewrite (size_add_small (tail (rb s)) 1) by lia.
  rewrite (size_add_small (count (rb s)) 1) by lia.
  split.
  { revert Hb. unfold mem_write. destruct (_ <=? _); [|discriminate].
    intros H. inversion H. reflexivity. }
  split; [|repeat split].
  intros Hl.
  destruct (slot_write (rb s) Hs (tail (rb s)) (element_in (rb s) e) Ht Hl)
    as (b' & Hb' & _ & Hw & Ho).
  destruct (slot_offset _ Hs _ Ht) as (Hoff & _).
  rewrite Hoff, Hb in Hb'. inversion Hb'. subst b'.
  split; [exact Hw|exact Ho].
Qed.

Lemma add_tail_success_witness :
  let s := boot (mk_ringbuf [x01; x00] 2 1 0 1 1 None None) in
  exists s',
    ringbuf_add_tail (Some [x02]) s = Done (0, s') /\
    buf (rb s') = [x01; x02] /\ tail (rb s') = 0 /\ count (rb s') = 2 /\
    head (rb s') = 0.
Proof.
  intros s.
  destruct (add_tail_success s [x02])
    as (s' & Hrun & Hb & _ & Ht & Hc & Hh).
  - size_solve.
  - simpl. lia.
  - simpl. lia.
  - unfold src_fits. simpl. lia.
  - exists s'. split; [exact Hrun|]. split; [exact Hb|].
    split; [exact Ht|]. split; [exact Hc|exact Hh].
Defined.

(** ** Removal without a destination *)

(** X6: on a non-empty buffer, a null destination only skips the copy:
    [ringbuf_remove_head] returns 0 with or without a destination and
    leaves the struct and the storage in the same state either way. *)
Theorem remove_head_discard (s : machine) (d : bytes) :
  storage_ok (rb s) ->
  0 <= head (rb s) < capacity (rb s) ->
  count (rb s) <> 0 ->
  dst_fits (rb s) (Some d) ->
  exists d' s1 s2,
    ringbuf_remove_head None s = Done ((0, None), s1) /\
    ringbuf_remove_head (Some d) s = Done ((0, Some d'), s2) /\
    rb s1 = rb s2.
Proof.
  intros Hs Hh Hc Hd.
  destruct (remove_head_run s None Hs Hh Hc I)
    as (b1 & out1 & Hb1 & _ & _ & _ & _ & Hrun1).
  destruct (remove_head_run s (Some d) Hs Hh Hc Hd)
    as (b2 & out2 & Hb2 & _ & _ & _ & _ & Hrun2).
  rewrite Hb1 in Hb2. inversion Hb2. subst b2.
  exists (overwrite d (element_out (rb s) d)).
  exists (mk_machine (after_remove (rb s) b1) out1).
  exists (mk_machine (after_remove (rb s) b1) out2).
  split; [exact Hrun1|]. split; [exact Hrun2|reflexivity].
Qed.

Lemma remove_head_discard_witness :
  let s := boot (mk_ringbuf [x01; x02] 2 1 1 1 2 None None) in
  exists d' s1 s2,
    ringbuf_remove_head None s = Done ((0, None), s1) /\
    ringbuf_remove_head (Some [x09]) s = Done ((0, Some d'), s2) /\
    rb s1 = rb s2.
Proof.
  intros s. apply (remove_head_discard s [x09]).
  - size_solve.
  - simpl. lia.
  - simpl. lia.
  - simpl. lia.
Defined.

(** ** Sequences of insertions and removals *)

Lemma contents_length r : length (contents r) = Z.to_nat (count r).
Proof. unfold contents. rewrite length_map, length_seq. reflexivity. Qed.

Lemma add_tail_fields (s : machine) (e : bytes) :
  fifo_ready (rb s) -> Z.of_nat (length e) = elem_sz (rb s) ->
  count (rb s) <> capacity (rb s) ->
  exists s',
    ringbuf_add_tail (Some e) s = Done (RB_OK, s') /\
    fifo_ready (rb s') /\
    elem_sz (rb s') = elem_sz (rb s) /\
    capacity (rb s') = capacity (rb s) /\
    head (rb s') = head (rb s) /\
    tail (rb s') = (tail (rb s) + 1) mod capacity (rb s) /\
    count (rb s') = count (rb s) + 1 /\
    contents (rb s') = contents (rb s) ++ [e].
Proof.
  intros Hr He Hf.
  destruct (add_tail_run s e Hr He Hf) as (s' & Ha & Hr' & Hz & Hc).
  exists s'. split; [exact Ha|]. split; [exact Hr'|]. split; [exact Hz|].
  destruct Hr as (Hs & Hk & Hi & _).
  assert (Hcap : 0 < capacity (rb s)) by (unfold count_ok in Hk; lia).
  destruct (Hi Hcap) as [[_ Ht] _].
  assert (Hlt : capacity (rb s) < SIZE_MOD)
    by (destruct Hs as ([_ ?] & _); assumption).
  apply add_tail_cases in Ha.
  destruct Ha as [[_ [[Hn _] | (_ & Hn & _)]] | (_ & _ & _ & x & b & _ & _ & Hrb)];
    [discriminate Hn | discriminate Hn |].
  unfold count_ok in Hk.
  split; [rewrite Hrb; reflexivity|]. split; [rewrite Hrb; reflexivity|].
  split; [rewrite Hrb; simpl; rewrite size_add_small by lia; reflexivity|].
  split; [rewrite Hrb; simpl; apply size_add_small; lia|exact Hc].
Qed.

Lemma remove_head_fields (s : machine) (d : option bytes) :
  fifo_ready (rb s) ->
  match d with
  | Some dst => Z.of_nat (length dst) = elem_sz (rb s)
  | None => True
  end ->
  count (rb s) <> 0 ->
  exists x s',
    ringbuf_remove_head d s
      = Done ((RB_OK, match d with Some _ => Some x | None => None end), s') /\
    fifo_ready (rb s') /\
    elem_sz (rb s') = elem_sz (rb s) /\
    capacity (rb s') = capacity (rb s) /\
    tail (rb s') = tail (rb s) /\
    head (rb s') = (head (rb s) + 1) mod capacity (rb s) /\
    count (rb s') = count (rb s) - 1 /\
    contents (rb s) = x :: contents (rb s').
Proof.
  intros Hr Hd He.
  destruct (remove_head_fifo s d Hr Hd He) as (x & s' & Ha & Hr' & Hz & Hc).
  exists x, s'. split; [exact Ha|]. split; [exact Hr'|]. split; [exact Hz|].
  destruct Hr as (Hs & Hk & Hi & _).
  assert (Hcap : 0 < capacity (rb s)) by (unfold count_ok in Hk; lia).
  destruct (Hi Hcap) as [[Hh _] _].
  assert (Hlt : capacity (rb s) < SIZE_MOD)
    by (destruct Hs as ([_ ?] & _); assumption).
  apply remove_head_cases in Ha.
  destruct Ha as [(_ & Hn & _) | (_ & _ & _ & _ & b & _ & Hrb)];
    [discriminate Hn|].
  unfold count_ok in Hk.
  split; [rewrite Hrb; reflexivity|]. split; [rewrite Hrb; reflexivity|].
  split; [rewrite Hrb; simpl; rewrite size_add_small by lia; reflexivity|].
  split; [rewrite Hrb; simpl; apply size_sub_small; lia|exact Hc].
Qed.







Lemma run_indices n cs : forall s,
  fifo_ready (rb s) -> elem_sz (rb s) = n -> 0 < capacity (rb s) ->
  Forall (sized n) cs ->
  exists rs s',
    run cs s = Done (rs, s') /\
    capacity (rb s') = capacity (rb s) /\
    count (rb s')
      = count (rb s) + Z.of_nat (length (accepted cs rs))
        - Z.of_nat (length (delivered rs)) /\
    head (rb s')
      = (head (rb s) + Z.of_nat (length (delivered rs))) mod capacity (rb s) /\
    tail (rb s')
      = (tail (rb s) + Z.of_nat (length (accepted cs rs))) mod capacity (rb s).
Proof.
  induction cs as [|c cs IH]; intros s Hr Hn Hcap Hall.
  - exists [], s. simpl. rewrite !Z.add_0_r.
    destruct Hr as (_ & _ & Hi & _). destruct (Hi Hcap) as [[Hh Ht] _].
    rewrite !Z.mod_small by lia. repeat split. lia.
  - inversion Hall as [|c0 cs0 Hc Hcs]. subst c0 cs0.
    rewrite run_cons. destruct c as [[e|]|d].
    + rewrite exec_add.
      destruct (Z.eq_dec (count (rb s)) (capacity (rb s))) as [Hf|Hf].
      * rewrite (add_tail_when_full s e Hf).
        destruct (IH s Hr Hn Hcap Hcs) as (rs & s' & -> & H1 & H2 & H3 & H4).
        exists (Added RB_ERR :: rs), s'. simpl.
        repeat split; assumption.
      * simpl in Hc. rewrite <- Hn in Hc.
        destruct (add_tail_fields s e Hr Hc Hf)
          as (s1 & Ha & Hr1 & Hz1 & Hc1 & Hh1 & Ht1 & Hk1 & _).
        rewrite Ha.
        destruct (IH s1 Hr1) as (rs & s' & -> & H1 & H2 & H3 & H4);
          [congruence | lia | exact Hcs |].
        exists (Added RB_OK :: rs), s'. simpl accepted. simpl delivered.
        simpl length.
        rewrite Hc1, Hh1, Ht1, Hk1 in *.
        rewrite Z.add_mod_idemp_l in H4 by lia.
        split; [reflexivity|]. split; [exact H1|]. split; [lia|].
        split; [exact H3|]. rewrite H4. f_equal. lia.
    + rewrite exec_add. simpl. unfold ret.
      destruct (IH s Hr Hn Hcap Hcs) as (rs & s' & -> & H1 & H2 & H3 & H4).
      exists (Added 0 :: rs), s'. simpl. repeat split; assumption.
    + rewrite exec_remove.
      destruct (Z.eq_dec (count (rb s)) 0) as [He|He].
      * rewrite (remove_head_when_empty s d He).
        destruct (IH s Hr Hn Hcap Hcs) as (rs & s' & -> & H1 & H2 & H3 & H4).
        exists (Removed RB_ERR d :: rs), s'. simpl.
        repeat split; assumption.
      * assert (Hd : match d with
                     | Some dst => Z.of_nat (length dst) = elem_sz (rb s)
                     | None => True
                     end)
          by (destruct d; [simpl in Hc; congruence|exact I]).
        destruct (remove_head_fields s d Hr Hd He)
          as (x & s1 & Ha & Hr1 & Hz1 & Hc1 & Ht1 & Hh1 & Hk1 & _).
        rewrite Ha.
        destruct (IH s1 Hr1) as (rs & s' & -> & H1 & H2 & H3 & H4);
          [congruence | lia | exact Hcs |].
        exists (Removed RB_OK (match d with Some _ => Some x | None => None end)
                  :: rs), s'.
        simpl accepted. simpl delivered. simpl length.
        rewrite Hc1, Hh1, Ht1, Hk1 in *.
        rewrite Z.add_mod_idemp_l in H3 by lia.
        split; [reflexivity|]. split; [exact H1|]. split; [lia|].
        split; [|exact H4]. rewrite H3. f_equal. lia.
Qed.

(** X9: after [ringbuf_init] with a positive capacity and any sequence of
    calls on element-sized objects, with A insertions and R removals that
    returned 0: count = A - R, head = R mod capacity and
    tail = A mod capacity. *)
Theorem index_bookkeeping (r0 : ringbuf) (storage : bytes)
        (n_elem elem_size : Z) (cs : list call) :
  0 < n_elem < SIZE_MOD -> is_size elem_size ->
  n_elem * elem_size <= Z.of_nat (length storage) < SIZE_MOD ->
  Forall (sized elem_size) cs ->
  exists r rs s',
    ringbuf_init (Some r0) (Some storage) n_elem elem_size = (RB_OK, Some r) /\
    run cs (boot r) = Done (rs, s') /\
    count (rb s')
      = Z.of_nat (length (accepted cs rs)) - Z.of_nat (length (delivered rs)) /\
    head (rb s') = Z.of_nat (length (delivered rs)) mod n_elem /\
    tail (rb s') = Z.of_nat (length (accepted cs rs)) mod n_elem.
Proof.
  intros Hn He Hl Hall.
  set (r := mk_ringbuf storage n_elem elem_size 0 0 0 None None).
  assert (Hr : fifo_ready (rb (boot r))).
  { unfold fifo_ready, storage_ok, count_ok, index_ok, tail_ok. simpl.
    unfold is_size in *. repeat split; lia. }
  destruct (run_indices elem_size cs (boot r) Hr eq_refl) as
    (rs & s' & Hrun & _ & Hk & Hh & Ht); [simpl; lia | exact Hall |].
  exists r, rs, s'. split; [reflexivity|]. split; [exact Hrun|].
  simpl in Hk, Hh, Ht. split; [lia|]. split; assumption.
Qed.

Lemma index_bookkeeping_witness :
  let cs := [AddTail (Some [x41]); AddTail (Some [x42]);
             RemoveHead (Some [x00]); AddTail (Some [x43]);
             RemoveHead None] in
  exists r rs s',
    ringbuf_init (Some (mk_ringbuf [] 0 0 0 0 0 None None))
                 (Some [xff; xff]) 2 1 = (RB_OK, Some r) /\
    run cs (boot r) = Done (rs, s') /\
    count (rb s') = 1 /\ head (rb s') = 0 /\ tail (rb s') = 1.
Proof.
  intros cs.
  destruct (index_bookkeeping (mk_ringbuf [] 0 0 0 0 0 None None)
              [xff; xff] 2 1 cs)
    as (r & rs & s' & Hi & Hrun & Hk & Hh & Ht).
  - size_solve.
  - size_solve.
  - size_solve.
  - repeat constructor.
  - exists r, rs, s'. split; [exact Hi|]. split; [exact Hrun|].
    inversion Hi. subst r.
    assert (Hrun' := Hrun). vm_compute in Hrun'. inversion Hrun'. subst rs s'.
    split; [reflexivity|]. split; reflexivity.
Defined.

(** ** The storage beyond the slots *)





(** ** What the debug printing shows *)








(** ** The copy callback of the test program *)

Lemma cstr_length l : (length (cstr l) <= length l)%nat.
Proof.
  induction l as [|b l IH]; simpl; [lia|].
  destruct (Byte.eqb b x00); simpl; lia.
Qed.










(** ** Reuse and wiping of slots *)




Lemma remove_head_wipe (s : machine) (d : option bytes) :
  fifo_ready (rb s) ->
  match d with
  | Some dst => Z.of_nat (length dst) = elem_sz (rb s)
  | None => True
  end ->
  count (rb s) <> 0 ->
  forall res s1, ringbuf_remove_head d s = Done (res, s1) ->
  slot (rb s1) (head (rb s)) = zeros (elem_sz (rb s)) /\
  forall j, 0 <= j < capacity (rb s) -> j <> head (rb s) ->
            slot (rb s1) j = slot (rb s) j.
Proof.
  intros (Hs & Hk & Hi & Hcp) Hd He res s1 Hrem.
  assert (Hcap : 0 < capacity (rb s)) by (unfold count_ok in Hk; lia).
  destruct (Hi Hcap) as [[Hh _] _].
  pose proof (slot_length _ Hs _ Hh) as Hsl.
  assert (Hfit : dst_fits (rb s) d).
  { destruct d as [dst|]; [|exact I]. unfold dst_fits, element_out.
    rewrite Hcp. lia. }
  destruct (remove_head_run s d Hs Hh He Hfit)
    as (b & out & _ & _ & Hz & Ho & _ & Hrun).
  rewrite Hrun in Hrem. inversion Hrem. subst res s1.
  split; [exact Hz|exact Ho].
Qed.

Lemma removes_wipe n ds : forall s,
  fifo_ready (rb s) -> elem_sz (rb s) = n ->
  Forall (fun d : bytes => Z.of_nat (length d) = n) ds ->
  length ds = Z.to_nat (count (rb s)) ->
  exists rs s',
    run (removes ds) s = Done (rs, s') /\
    forall j, 0 <= j < capacity (rb s) ->
      (occupied (rb s) j -> slot (rb s') j = zeros n) /\
      (~ occupied (rb s) j -> slot (rb s') j = slot (rb s) j).
Proof.
  induction ds as [|d ds IH]; intros s Hr Hn Hall Hl.
  - exists [], s. split; [reflexivity|]. intros j Hj. split; [|reflexivity].
    intros (k & Hk & _). simpl in Hl.
    destruct Hr as (_ & Hc & _). unfold count_ok in Hc. lia.
  - inversion Hall as [|d0 ds0 Hd Hds]. subst d0 ds0.
    simpl length in Hl.
    assert (Hne : count (rb s) <> 0) by lia.
    rewrite <- Hn in Hd.
    destruct (remove_head_fields s (Some d) Hr Hd Hne)
      as (x & s1 & Hrem & Hr1 & Hz1 & Hc1 & _ & Hh1 & Hk1 & _).
    destruct (remove_head_wipe s (Some d) Hr Hd Hne _ _ Hrem) as [Hz Ho].
    destruct (IH s1 Hr1) as (rs & s' & Hrun & Hw);
      [congruence | exact Hds | lia |].
    unfold removes. simpl map. rewrite run_cons, exec_remove, Hrem.
    fold (removes ds). rewrite Hrun.
    eexists. exists s'. split; [reflexivity|].
    destruct Hr as (Hs & Hc & Hi & _). unfold count_ok in Hc.
    assert (Hcap : 0 < capacity (rb s)) by lia.
    destruct (Hi Hcap) as [[Hh _] _].
    assert (Hnot : ~ occupied (rb s1) (head (rb s))).
    { intros (k & Hk & E). rewrite Hh1, Hc1, Hk1 in *.
      rewrite Z.add_mod_idemp_l in E by lia.
      apply (mod_window_neq (head (rb s)) 0 (1 + k) (capacity (rb s)));
        try lia.
      rewrite Z.add_0_r, (Z.mod_small (head (rb s))) by lia.
      rewrite E. f_equal. lia. }
    intros j Hj. rewrite Hc1 in Hw. destruct (Hw j Hj) as [Hocc Hfree].
    destruct (Z.eq_dec j (head (rb s))) as [E|E].
    + subst j. split.
      * intros _. rewrite (Hfree Hnot), Hz. congruence.
      * intros Hno. exfalso. apply Hno. exists 0. split; [lia|].
        rewrite Z.add_0_r, Z.mod_small by lia. reflexivity.
    + split.
      * intros (k & Hk & Ej). apply Hocc.
        assert (k <> 0).
        { intros ->. apply E. rewrite Ej, Z.add_0_r. apply Z.mod_small. lia. }
        exists (k - 1). split; [lia|].
        rewrite Hh1, Hc1, Z.add_mod_idemp_l by lia. rewrite Ej. f_equal. lia.
      * intros Hno. rewrite Hfree; [apply Ho; assumption|].
        intros (k & Hk & Ej). apply Hno. exists (k + 1). split; [lia|].
        rewrite Ej, Hh1, Hc1, Z.add_mod_idemp_l by lia. f_equal. lia.
Qed.

(** X16: draining the buffer wipes it: after as many removals as there
    were elements, every slot that held one is filled with zero bytes, and
    the slots that held none are what they were. *)
Theorem drain_wipes (s : machine) (ds : list bytes) :
  fifo_ready (rb s) ->
  Forall (fun d : bytes => Z.of_nat (length d) = elem_sz (rb s)) ds ->
  length ds = Z.to_nat (count (rb s)) ->
  exists rs s',
    run (removes ds) s = Done (rs, s') /\
    forall j, 0 <= j < capacity (rb s) ->
      (occupied (rb s) j -> slot (rb s') j = zeros (elem_sz (rb s))) /\
      (~ occupied (rb s) j -> slot (rb s') j = slot (rb s) j).
Proof.
  intros Hr Hall Hl.
  destruct (removes_wipe (elem_sz (rb s)) ds s Hr eq_refl Hall Hl)
    as (rs & s' & Hrun & Hw).
  exists rs, s'. split; [exact Hrun|exact Hw].
Qed.

Lemma drain_wipes_witness :
  let s := boot (mk_ringbuf [x0b; x33; x0a] 3 1 2 1 2 None None) in
  exists rs s',
    run (removes [[xff]; [xff]]) s = Done (rs, s') /\
    slot (rb s') 2 = [x00] /\ slot (rb s') 0 = [x00] /\
    slot (rb s') 1 = [x33].
Proof.
  intros s.
  destruct (drain_wipes s [[xff]; [xff]]) as (rs & s' & Hrun & Hw).
  - unfold fifo_ready, storage_ok, count_ok, index_ok, tail_ok, is_size,
      SIZE_MOD, SIZE_BITS. simpl. repeat split; try lia.
  - repeat constructor.
  - reflexivity.
  - exists rs, s'. split; [exact Hrun|].
    assert (H2 : occupied (rb s) 2) by (exists 0; simpl; split; [lia|reflexivity]).
    assert (H0 : occupied (rb s) 0) by (exists 1; simpl; split; [lia|reflexivity]).
    assert (H1 : ~ occupied (rb s) 1).
    { intros (k & Hk & E). simpl in Hk, E.
      assert (Hk' : k = 0 \/ k = 1) by lia.
      destruct Hk' as [-> | ->]; discriminate E. }
    split; [apply (Hw 2); [simpl; lia|exact H2]|].
    split; [apply (Hw 0); [simpl; lia|exact H0]|].
    apply (Hw 1); [simpl; lia|exact H1].
Defined.
